(** * peipsi-birds-scraper: the traversal engine of [src/index.js]

    A shallow embedding of the scraper's core ([getItems], [extractOrder],
    [extractFamily], the four field extractors and [getBirdsData]) together
    with the JavaScript built-ins it relies on: strings as sequences of
    UTF-16 code units, [toUpperCase], [trim], [replace] with a string
    pattern, and the backtracking regular-expression matcher behind
    [String.prototype.match]. *)

From Stdlib Require Import NArith Ascii String List Bool Lia.
From stdpp Require Import base option list numbers strings gmap.

Open Scope N_scope.

(** ** JavaScript strings *)

Module JsString.

(** A JavaScript string is a finite sequence of 16-bit code units. *)
Abbreviation jsstring := (list N).

Definition isLeadingSurrogate (u : N) : bool := (0xD800 <=? u) && (u <=? 0xDBFF).
Definition isTrailingSurrogate (u : N) : bool := (0xDC00 <=? u) && (u <=? 0xDFFF).

Definition UTF16SurrogatePairToCodePoint (lead trail : N) : N :=
  (lead - 0xD800) * 0x400 + (trail - 0xDC00) + 0x10000.

(** [StringToCodePoints]: surrogate pairs are joined, unpaired surrogates
    are kept as they are. *)
Fixpoint StringToCodePoints (s : jsstring) : list N :=
  match s with
  | [] => []
  | first :: rest =>
      if isLeadingSurrogate first then
        match rest with
        | second :: rest' =>
            if isTrailingSurrogate second
            then UTF16SurrogatePairToCodePoint first second :: StringToCodePoints rest'
            else first :: StringToCodePoints rest
        | [] => [first]
        end
      else first :: StringToCodePoints rest
  end.

Definition UTF16EncodeCodePoint (cp : N) : jsstring :=
  if cp <=? 0xFFFF then [cp]
  else [(cp - 0x10000) / 0x400 + 0xD800; (cp - 0x10000) mod 0x400 + 0xDC00].

Definition CodePointsToString (cps : list N) : jsstring :=
  flat_map UTF16EncodeCodePoint cps.

(** [String.prototype.toUpperCase]: the string is read as code points, every
    code point is replaced by its upper-case mapping (one or more code
    points) and the outcome is encoded again.  The mapping itself is the
    Unicode Character Database's; it is a parameter here. *)
Definition toUpperCase (upper : N -> list N) (s : jsstring) : jsstring :=
  CodePointsToString (flat_map upper (StringToCodePoints s)).

(** Strict equality of two strings: the same code units. *)
Definition strictEq (a b : jsstring) : bool := bool_decide (a = b).

(** WhiteSpace and LineTerminator code units, as used by [trim] and by the
    class escape [\s]. *)
Definition whiteSpaceRanges : list (N * N) :=
  [ (0x0009, 0x000D); (0x0020, 0x0020); (0x00A0, 0x00A0); (0x1680, 0x1680);
    (0x2000, 0x200A); (0x2028, 0x2029); (0x202F, 0x202F); (0x205F, 0x205F);
    (0x3000, 0x3000); (0xFEFF, 0xFEFF) ].

Definition inRanges (u : N) (rs : list (N * N)) : bool :=
  existsb (fun r => (fst r <=? u) && (u <=? snd r)) rs.

Definition isWhiteSpace (u : N) : bool := inRanges u whiteSpaceRanges.

Fixpoint trimStart (s : jsstring) : jsstring :=
  match s with
  | u :: s' => if isWhiteSpace u then trimStart s' else s
  | [] => []
  end.

Definition trimEnd (s : jsstring) : jsstring := rev (trimStart (rev s)).

(** [String.prototype.trim] *)
Definition trim (s : jsstring) : jsstring := trimEnd (trimStart s).

Fixpoint startsWith (p s : jsstring) : bool :=
  match p, s with
  | [], _ => true
  | a :: p', b :: s' => (a =? b) && startsWith p' s'
  | _ :: _, [] => false
  end.

(** [StringIndexOf(s, p, 0)]: the smallest index at which [p] occurs. *)
Fixpoint indexOfFrom (p s : jsstring) (i : nat) : option nat :=
  if startsWith p s then Some i
  else match s with
       | [] => None
       | _ :: s' => indexOfFrom p s' (S i)
       end.

Definition indexOf (p s : jsstring) : option nat := indexOfFrom p s 0.

(** [String.prototype.replace] with a string pattern and a replacement
    string without [$] patterns (the scraper only ever passes the empty
    string): the first occurrence of the pattern is replaced, nothing else
    is touched; without an occurrence the string is returned as is. *)
Definition replace (searchValue replaceValue s : jsstring) : jsstring :=
  match indexOf searchValue s with
  | None => s
  | Some pos =>
      take pos s ++ replaceValue ++ drop (pos + length searchValue)%nat s
  end.

(** *** String literals

    Rocq string literals are byte sequences; the source file is UTF-8, so a
    literal is decoded from UTF-8 and encoded as UTF-16. *)
Fixpoint utf8CodePoints (bs : list N) : list N :=
  match bs with
  | [] => []
  | b0 :: t0 =>
      if b0 <? 0x80 then b0 :: utf8CodePoints t0
      else if b0 <? 0xE0 then
        match t0 with
        | b1 :: t1 => (b0 mod 0x20) * 0x40 + b1 mod 0x40 :: utf8CodePoints t1
        | _ => []
        end
      else if b0 <? 0xF0 then
        match t0 with
        | b1 :: b2 :: t2 =>
            (b0 mod 0x10) * 0x1000 + (b1 mod 0x40) * 0x40 + b2 mod 0x40
              :: utf8CodePoints t2
        | _ => []
        end
      else
        match t0 with
        | b1 :: b2 :: b3 :: t3 =>
            (b0 mod 0x08) * 0x40000 + (b1 mod 0x40) * 0x1000
              + (b2 mod 0x40) * 0x40 + b3 mod 0x40 :: utf8CodePoints t3
        | _ => []
        end
  end.

Definition js (s : string) : jsstring :=
  CodePointsToString (utf8CodePoints (map N_of_ascii (list_ascii_of_string s))).

(** The code unit of a one-character literal. *)
Definition codeUnit (s : string) : N := hd 0 (js s).

(** *** The upper-case mapping on the site's alphabets

    Unicode's upper-case mapping restricted to Basic Latin, Latin-1
    Supplement and the Cyrillic letters U+0400..U+045F; code points outside
    these blocks are left alone.  Used for the concrete runs below; the
    general statements hold for every mapping. *)
Definition upperLatinCyrillic (cp : N) : list N :=
  if (0x61 <=? cp) && (cp <=? 0x7A) then [cp - 0x20]
  else if cp =? 0xB5 then [0x39C]
  else if cp =? 0xDF then [0x53; 0x53]
  else if (0xE0 <=? cp) && (cp <=? 0xFE) && negb (cp =? 0xF7) then [cp - 0x20]
  else if cp =? 0xFF then [0x178]
  else if (0x430 <=? cp) && (cp <=? 0x44F) then [cp - 0x20]
  else if (0x450 <=? cp) && (cp <=? 0x45F) then [cp - 0x50]
  else [cp].

End JsString.

Import JsString.

(** ** Regular expressions

    The fragment of ECMAScript patterns used by the scraper (no flags):
    character classes, sequence, disjunction, quantifiers, groups, negative
    lookahead and the [$] assertion.  Matching follows the specification's
    backtracking matchers in continuation-passing style.  The position in
    the input is represented by the part of the input that is still to be
    read; none of the patterns looks behind. *)

Module RegExp.

Inductive regex : Type :=
| Empty
| Class (negated : bool) (ranges : list (N * N))
| Cat (r1 r2 : regex)
| Alt (r1 r2 : regex)
| Quant (min : nat) (max : option nat) (greedy : bool) (r : regex)
| Group (r : regex)
| NegLookahead (r : regex)
| EndOfInput.

Definition continuation := jsstring -> option jsstring.
Definition matcherT := jsstring -> continuation -> option jsstring.

(** [RepeatMatcher(m, min, max, greedy, x, c)].  An iteration that consumes
    nothing once [min] is reached is rejected, so [min] plus the length of
    the remaining input decreases with every iteration; [fuel] is an upper
    bound of that measure ([matcher] starts it one above, and
    [RepeatMatcher_spec] below shows that this is never used up). *)
Fixpoint RepeatMatcher (m : matcherT) (fuel min : nat) (max : option nat)
    (greedy : bool) (x : jsstring) (c : continuation) : option jsstring :=
  match fuel with
  | O => None
  | S fuel' =>
      if bool_decide (max = Some O) then c x
      else
        let d : continuation := fun y =>
          if (min =? 0)%nat && (length y =? length x)%nat then None
          else RepeatMatcher m fuel' (pred min) (pred <$> max) greedy y c in
        if negb (min =? 0)%nat then m x d
        else if greedy then
          match m x d with
          | Some z => Some z
          | None => c x
          end
        else
          match c x with
          | Some z => Some z
          | None => m x d
          end
  end.

Fixpoint matcher (r : regex) (x : jsstring) (c : continuation) : option jsstring :=
  match r with
  | Empty => c x
  | Class negated ranges =>
      match x with
      | ch :: y => if xorb negated (inRanges ch ranges) then c y else None
      | [] => None
      end
  | Cat r1 r2 => matcher r1 x (fun y => matcher r2 y c)
  | Alt r1 r2 =>
      match matcher r1 x c with
      | Some z => Some z
      | None => matcher r2 x c
      end
  | Quant min max greedy r1 =>
      RepeatMatcher (matcher r1) (S (min + length x)) min max greedy x c
  | Group r1 => matcher r1 x c
  | NegLookahead r1 =>
      match matcher r1 x Some with
      | Some _ => None
      | None => c x
      end
  | EndOfInput =>
      match x with
      | [] => c x
      | _ :: _ => None
      end
  end.

(** [RegExpBuiltinExec] for a pattern without the global or sticky flag:
    the match is attempted at index 0, 1, ... up to the length of the
    input; the first index at which it succeeds gives the result, of which
    the index and the matched substring (element [0] of the result array)
    are kept. *)
Fixpoint execFrom (r : regex) (lastIndex : nat) (x : jsstring)
  : option (nat * jsstring) :=
  match matcher r x Some with
  | Some y => Some (lastIndex, take (length x - length y)%nat x)
  | None =>
      match x with
      | [] => None
      | _ :: x' => execFrom r (S lastIndex) x'
      end
  end.

(** [s.match(r)]: [None] is JavaScript's [null]. *)
Definition jsMatch (s : jsstring) (r : regex) : option (nat * jsstring) :=
  execFrom r 0 s.

(** *** Pattern syntax *)

Definition seq (rs : list regex) : regex := foldr Cat Empty rs.
Definition char (s : string) : regex := Class false [(codeUnit s, codeUnit s)].
Definition literal (s : string) : regex :=
  seq (map (fun u => Class false [(u, u)]) (js s)).
Definition range (a b : string) : N * N := (codeUnit a, codeUnit b).
Definition single (a : string) : N * N := (codeUnit a, codeUnit a).
Definition plus (r : regex) : regex := Quant 1 None true r.
Definition lazyPlus (r : regex) : regex := Quant 1 None false r.
Definition star (r : regex) : regex := Quant 0 None true r.
Definition opt (r : regex) : regex := Quant 0 (Some 1%nat) true r.

(** [\w] *)
Definition wordRanges : list (N * N) :=
  [range "a" "z"; range "A" "Z"; range "0" "9"; single "_"].

(** *** What a pattern matches

    [lang r x y]: read from the input [x], the pattern [r] can match and
    leave [y] to be read.  Priorities among the possible matches are not
    part of this relation; [matcher] finds one exactly when there is one
    that its continuation accepts. *)

Inductive reps (R : jsstring -> jsstring -> Prop)
  : nat -> option nat -> jsstring -> jsstring -> Prop :=
| reps_done min max x :
    min = O \/ max = Some O -> reps R min max x x
| reps_step min max x y z :
    max <> Some O ->
    R x y ->
    (min = O -> length y <> length x) ->
    reps R (pred min) (pred <$> max) y z ->
    reps R min max x z.

Fixpoint lang (r : regex) (x y : jsstring) : Prop :=
  match r with
  | Empty => y = x
  | Class negated ranges =>
      exists ch, x = ch :: y /\ xorb negated (inRanges ch ranges) = true
  | Cat r1 r2 => exists z, lang r1 x z /\ lang r2 z y
  | Alt r1 r2 => lang r1 x y \/ lang r2 x y
  | Quant min max _ r1 => reps (lang r1) min max x y
  | Group r1 => lang r1 x y
  | NegLookahead r1 => y = x /\ forall z, ~ lang r1 x z
  | EndOfInput => x = [] /\ y = []
  end.

End RegExp.

Import RegExp.

(** ** The scraper *)

Module Scraper.

(** *** The patterns of [src/index.js] *)

(** [/\/(?!reference|en)[a-z]+\/\w+\/[a-z-0-9]+?\/$/] *)
Definition leafPattern : regex :=
  seq [ char "/";
        NegLookahead (Alt (literal "reference") (literal "en"));
        plus (Class false [range "a" "z"]);
        char "/";
        plus (Class false wordRanges);
        char "/";
        lazyPlus (Class false [range "a" "z"; single "-"; range "0" "9"]);
        char "/";
        EndOfInput ].

(** [/(reference)\/\w+\/$/] *)
Definition orderHeadingPattern : regex :=
  seq [ Group (literal "reference");
        char "/";
        plus (Class false wordRanges);
        char "/";
        EndOfInput ].

(** [/(reference)\/\w+\/[a-z-]+\/$/] *)
Definition familyHeadingPattern : regex :=
  seq [ Group (literal "reference");
        char "/";
        plus (Class false wordRanges);
        char "/";
        plus (Class false [range "a" "z"; single "-"]);
        char "/";
        EndOfInput ].

(** [А-Яа-яё] *)
Definition cyrillicRanges : list (N * N) :=
  [range "А" "Я"; range "а" "я"; single "ё"].

(** [/[А-Яа-яё-]+\s*[А-Яа-яё\s]*(\((?:[А-Яа-яё\s]+)\))?/] *)
Definition regExpRusName : regex :=
  seq [ plus (Class false (cyrillicRanges ++ [single "-"]));
        star (Class false whiteSpaceRanges);
        star (Class false (cyrillicRanges ++ whiteSpaceRanges));
        opt (Group (seq [ char "(";
                          Group (plus (Class false (cyrillicRanges ++ whiteSpaceRanges)));
                          char ")" ])) ].

(** [/[a-zA-Z]+\s?[a-zA-Z]+/] *)
Definition regExpLatName : regex :=
  seq [ plus (Class false [range "a" "z"; range "A" "Z"]);
        opt (Class false whiteSpaceRanges);
        plus (Class false [range "a" "z"; range "A" "Z"]) ].

(** *** Pages *)

(** An anchor element: its resolved [href] and its [textContent]. *)
Record Anchor := { href : jsstring; textContent : jsstring }.

(** The three selectors the extractors evaluate. *)
Inductive Selector :=
| ArticleH1         (* 'article h1' *)
| ArticleP1         (* 'article p:nth-of-type(1)' *)
| ArticleP2.        (* 'article p:nth-of-type(2)' *)

(** What the scraper can observe of a document: its anchors in document
    order and, for each selector, the [textContent] of the first element it
    selects, if it selects one. *)
Record Document := {
  anchors : list Anchor;
  article_h1 : option jsstring;
  article_p1 : option jsstring;
  article_p2 : option jsstring
}.

Definition querySelector (d : Document) (sel : Selector) : option jsstring :=
  match sel with
  | ArticleH1 => article_h1 d
  | ArticleP1 => article_p1 d
  | ArticleP2 => article_p2 d
  end.

Inductive JsError :=
| TypeError
| NavigationError (url : jsstring)
| ElementNotFound (sel : Selector).

(** A bird record and the classification object are plain JavaScript
    objects with string values. *)
Abbreviation object := (gmap string jsstring).

(** The state the traversal reads and writes: the page (its current
    document and the addresses it was sent to, oldest first) and the two
    locals of [getBirdsData] that outlive an iteration. *)
Record State := {
  page : Document;
  visited : list jsstring;
  birdClassification : object;
  birdsData : list object
}.

Inductive Outcome (A : Type) :=
| Return (a : A) (st : State)
| Throw (e : JsError) (st : State).
Arguments Return {A} a st.
Arguments Throw {A} e st.

Definition M (A : Type) := State -> Outcome A.

Definition ret {A} (a : A) : M A := fun st => Return a st.
Definition throw {A} (e : JsError) : M A := fun st => Throw e st.
Definition bind {A B} (m : M A) (k : A -> M B) : M B :=
  fun st => match m st with
            | Return a st' => k a st'
            | Throw e st' => Throw e st'
            end.

#[global] Instance M_ret : MRet M := @ret.
#[global] Instance M_bind : MBind M := fun A B k m => bind m k.

Definition finalState {A} (o : Outcome A) : State :=
  match o with
  | Return _ st => st
  | Throw _ st => st
  end.

Section Engine.

(** The Unicode upper-case mapping and the site (what [page.goto] finds at
    an address; [None] when the navigation fails). *)
Variable upper : N -> list N.
Variable site : jsstring -> option Document.

(** The callback of [Array.from] in [getItems]. *)
Definition anchorToken (elem : Anchor) : option jsstring :=
  if jsMatch (href elem) leafPattern is Some _ then Some (href elem)
  else if jsMatch (href elem) orderHeadingPattern is Some _ then Some (textContent elem)
  else if jsMatch (href elem) familyHeadingPattern is Some _ then Some (textContent elem)
  else None.

(** [getItems]: [null] results are filtered out. *)
Definition getItems (d : Document) : list jsstring :=
  omap anchorToken (anchors d).

Definition extractOrder (url : jsstring) : option jsstring :=
  if strictEq url (toUpperCase upper url) then Some url else None.

(** [url[0]] is [undefined] for the empty string, and reading
    [toUpperCase] from [undefined] is a [TypeError]. *)
Definition extractFamily (url : jsstring) : JsError + option jsstring :=
  match url with
  | [] => inl TypeError
  | u :: _ =>
      inr (if strictEq [u] (toUpperCase upper [u]) then Some url else None)
  end.

(** Truthiness of a value that is a string or [null]. *)
Definition truthy (v : option jsstring) : bool :=
  match v with
  | Some (_ :: _) => true
  | _ => false
  end.

Definition lift {A} (r : JsError + A) : M A :=
  match r with
  | inl e => throw e
  | inr a => ret a
  end.

(** [page.goto(url)] *)
Definition goto (url : jsstring) : M unit := fun st =>
  let st' := {| page := page st; visited := visited st ++ [url];
                birdClassification := birdClassification st;
                birdsData := birdsData st |} in
  match site url with
  | Some d => Return tt {| page := d; visited := visited st';
                           birdClassification := birdClassification st;
                           birdsData := birdsData st |}
  | None => Throw (NavigationError url) st'
  end.

(** [page.$eval(sel, el => el.textContent)] *)
Definition evalTextContent (sel : Selector) : M jsstring := fun st =>
  match querySelector (page st) sel with
  | Some t => Return t st
  | None => Throw (ElementNotFound sel) st
  end.

(** [title.match(re)[0].trim()] *)
Definition firstMatchTrimmed (title : jsstring) (re : regex) : JsError + jsstring :=
  match jsMatch title re with
  | Some (_, m0) => inr (trim m0)
  | None => inl TypeError
  end.

Definition extractRusName : M jsstring :=
  title ← evalTextContent ArticleH1;
  lift (firstMatchTrimmed title regExpRusName).

Definition extractLatName : M jsstring :=
  title ← evalTextContent ArticleH1;
  lift (firstMatchTrimmed title regExpLatName).

Definition extractSigns : M jsstring :=
  signs ← evalTextContent ArticleP1;
  ret (replace (js "Признаки. ") [] signs).

Definition extractHabitat : M jsstring :=
  habitat ← evalTextContent ArticleP2;
  ret (replace (js "Местообитание. ") [] habitat).

Definition setOrder (v : jsstring) : M unit := fun st =>
  Return tt {| page := page st; visited := visited st;
               birdClassification := <["order" := v]> (birdClassification st);
               birdsData := birdsData st |}.

Definition setFamily (v : jsstring) : M unit := fun st =>
  Return tt {| page := page st; visited := visited st;
               birdClassification := <["family" := v]> (birdClassification st);
               birdsData := birdsData st |}.

(** [birdsData.push({...birdClassification, ...birdDetails})]: the later
    spread wins on a common key. *)
Definition push (birdDetails : object) : M unit := fun st =>
  Return tt {| page := page st; visited := visited st;
               birdClassification := birdClassification st;
               birdsData := birdsData st ++ [birdDetails ∪ birdClassification st] |}.

(** The part of the loop body after the two [continue]s. *)
Definition visitLeaf (item : jsstring) : M unit :=
  goto item;;
  rusName ← extractRusName;
  latName ← extractLatName;
  signs ← extractSigns;
  habitat ← extractHabitat;
  push (<["habitat" := habitat]> (<["signs" := signs]>
         (<["latName" := latName]> (<["rusName" := rusName]> ∅)))).

(** The body of the [for ... of] loop.  Both checks are awaited before the
    first [if]; a truthy [order] or [family] is a non-empty string, which is
    what is stored. *)
Definition iteration (item : jsstring) : M unit :=
  let order := extractOrder item in
  family ← lift (extractFamily item);
  if truthy order then setOrder (default [] order)
  else if truthy family then setFamily (default [] family)
  else visitLeaf item.

(** The loop: an exception ends it. *)
Fixpoint forOf (items : list jsstring) : M unit :=
  match items with
  | [] => ret tt
  | item :: rest => iteration item;; forOf rest
  end.

Definition initLocals (st : State) : State :=
  {| page := page st; visited := visited st;
     birdClassification := ∅; birdsData := [] |}.

(** [getBirdsData] on the page of the given state. *)
Definition getBirdsData : M (list object) := fun st =>
  let items := getItems (page st) in
  match forOf items (initLocals st) with
  | Return _ st' => Return (birdsData st') st'
  | Throw e st' => Throw e st'
  end.

End Engine.

End Scraper.

Import Scraper.

(** ** Vocabulary of the specification *)

Module Vocabulary.

(** What the loop body decides about a candidate. *)
Inductive Verdict :=
| OrderMarker (token : jsstring)
| FamilyMarker (token : jsstring)
| Leaf (url : jsstring).

Section Classification.

Variable upper : N -> list N.

(** The decision of the loop body of [getBirdsData], read off its two
    [if]s: both checks are evaluated first, the order check has priority. *)
Definition classify (item : jsstring) : JsError + Verdict :=
  match extractFamily upper item with
  | inl e => inl e
  | inr family =>
      inr (if truthy (extractOrder upper item) then OrderMarker item
           else if truthy family then FamilyMarker item
           else Leaf item)
  end.

Definition isOrderMarker (item : jsstring) : bool :=
  if classify item is inr (OrderMarker _) then true else false.

Definition isFamilyMarker (item : jsstring) : bool :=
  if classify item is inr (FamilyMarker _) then true else false.

Definition isLeaf (item : jsstring) : bool :=
  if classify item is inr (Leaf _) then true else false.

End Classification.

(** The token of the most recent marker among the candidates [seen]. *)
Definition lastMarker (isMarker : jsstring -> bool) (seen : list jsstring)
  : option jsstring :=
  last (List.filter isMarker seen).

(** The value of a field of the classification after the candidates
    [seen], when it was [before] at their start. *)
Definition carried (isMarker : jsstring -> bool) (seen : list jsstring)
    (before : option jsstring) : option jsstring :=
  match lastMarker isMarker seen with
  | Some token => Some token
  | None => before
  end.

(** All code units of a segment lie in the given class. *)
Definition allIn (ranges : list (N * N)) (s : jsstring) : bool :=
  forallb (fun u => inRanges u ranges) s.

(** [p] occurs in [s] at [a], and nowhere further left. *)
Definition firstOccurrence (p s a b : jsstring) : Prop :=
  s = a ++ p ++ b /\
  forall a' b', s = a' ++ p ++ b' -> (length a <= length a')%nat.

Definition noOccurrence (p s : jsstring) : Prop :=
  forall a b, s <> a ++ p ++ b.

(** A leaf page on which all four extractions succeed. *)
Definition wellFormed (d : Document) : bool :=
  match article_h1 d, article_p1 d, article_p2 d with
  | Some title, Some _, Some _ =>
      bool_decide (is_Some (jsMatch title regExpRusName))
      && bool_decide (is_Some (jsMatch title regExpLatName))
  | _, _, _ => false
  end.

(** What the four extractors yield on a document, in the order in which
    the loop body calls them: the fields of [birdDetails], or the first
    error. *)
Definition extractDetails (d : Document) : JsError + object :=
  match article_h1 d with
  | None => inl (ElementNotFound ArticleH1)
  | Some title =>
      match firstMatchTrimmed title regExpRusName with
      | inl e => inl e
      | inr rusName =>
          match firstMatchTrimmed title regExpLatName with
          | inl e => inl e
          | inr latName =>
              match article_p1 d with
              | None => inl (ElementNotFound ArticleP1)
              | Some signs =>
                  match article_p2 d with
                  | None => inl (ElementNotFound ArticleP2)
                  | Some habitat =>
                      inr (<["habitat" := replace (js "Местообитание. ") [] habitat]>
                          (<["signs" := replace (js "Признаки. ") [] signs]>
                          (<["latName" := latName]>
                          (<["rusName" := rusName]> ∅))))
                  end
              end
          end
      end
  end.

(** The state after [page.goto(url)] has loaded [d]. *)
Definition arrivedAt (url : jsstring) (d : Document) (st : State) : State :=
  {| page := d; visited := visited st ++ [url];
     birdClassification := birdClassification st;
     birdsData := birdsData st |}.

(** The state after a failed [page.goto(url)]. *)
Definition strandedAt (url : jsstring) (st : State) : State :=
  {| page := page st; visited := visited st ++ [url];
     birdClassification := birdClassification st;
     birdsData := birdsData st |}.

(** The state after a record for the leaf at [url] has been pushed. *)
Definition recorded (url : jsstring) (d : Document) (details : object)
    (st : State) : State :=
  {| page := d; visited := visited st ++ [url];
     birdClassification := birdClassification st;
     birdsData := birdsData st ++ [details ∪ birdClassification st] |}.

Definition withOrder (v : jsstring) (st : State) : State :=
  {| page := page st; visited := visited st;
     birdClassification := <["order" := v]> (birdClassification st);
     birdsData := birdsData st |}.

Definition withFamily (v : jsstring) (st : State) : State :=
  {| page := page st; visited := visited st;
     birdClassification := <["family" := v]> (birdClassification st);
     birdsData := birdsData st |}.

End Vocabulary.

Import Vocabulary.

(** ** A small site for the concrete runs *)

Module Samples.

Definition leafUrl : jsstring :=
  Eval vm_compute in js "https://birds.peipsi.org/poganki/chomga/bolshaya/".

Definition chomgaPage : Document :=
  {| anchors := [];
     article_h1 := Some (js "Чомга Podiceps cristatus");
     article_p1 := Some (js "Признаки. Крупная птица с хохолком.");
     article_p2 := Some (js "Местообитание. Озёра и пруды.") |}.

(** The same page without its second paragraph. *)
Definition brokenUrl : jsstring :=
  Eval vm_compute in js "https://birds.peipsi.org/poganki/chomga/seroshchekaya/".

Definition brokenPage : Document :=
  {| anchors := [];
     article_h1 := Some (js "Серощёкая поганка Podiceps grisegena");
     article_p1 := Some (js "Признаки. Меньше чомги.");
     article_p2 := None |}.

Definition sampleSite (url : jsstring) : option Document :=
  if strictEq url leafUrl then Some chomgaPage
  else if strictEq url brokenUrl then Some brokenPage
  else None.

Definition orderAnchor : Anchor :=
  {| href := js "https://birds.peipsi.org/reference/poganki/";
     textContent := js "ПОГАНКООБРАЗНЫЕ" |}.

Definition familyAnchor : Anchor :=
  {| href := js "https://birds.peipsi.org/reference/poganki/chomga/";
     textContent := js "Поганковые" |}.

Definition leafAnchor : Anchor :=
  {| href := leafUrl; textContent := js "Чомга" |}.

Definition brokenAnchor : Anchor :=
  {| href := brokenUrl; textContent := js "Серощёкая поганка" |}.

Definition emptyAnchor : Anchor :=
  {| href := js "https://birds.peipsi.org/reference/gagary/";
     textContent := [] |}.

Definition enotAnchor : Anchor :=
  {| href := js "https://birds.peipsi.org/enot/chomga/bolshaya/";
     textContent := js "Чомга" |}.

Definition capitalAnchor : Anchor :=
  {| href := js "https://birds.peipsi.org/Poganki/chomga/bolshaya/";
     textContent := js "Чомга" |}.

Definition listing (links : list Anchor) : Document :=
  {| anchors := links; article_h1 := None;
     article_p1 := None; article_p2 := None |}.

Definition startAt (d : Document) : State :=
  {| page := d; visited := []; birdClassification := ∅; birdsData := [] |}.

Definition chomgaRecord : object :=
  <["order" := js "ПОГАНКООБРАЗНЫЕ"]> (<["family" := js "Поганковые"]>
  (<["rusName" := js "Чомга"]> (<["latName" := js "Podiceps cristatus"]>
  (<["signs" := js "Крупная птица с хохолком."]>
  (<["habitat" := js "Озёра и пруды."]> ∅))))).

Definition lowerLabel : jsstring := Eval vm_compute in js "поганки".

Definition innerLabelPage : Document :=
  {| anchors := [];
     article_h1 := Some (js "Чомга Podiceps cristatus");
     article_p1 := Some (js "Голос. Признаки. Тихий.");
     article_p2 := Some (js "Гнездо. Местообитание. Озёра.") |}.

Definition digitsPage : Document :=
  {| anchors := [];
     article_h1 := Some (js "2023 / 2024");
     article_p1 := None;
     article_p2 := None |}.

End Samples.

Import Samples.

(** ** Shapes of addresses and of traversals *)

Module Shapes.

Definition lowerRanges : list (N * N) := [range "a" "z"].
Definition lowerDigitRanges : list (N * N) :=
  [range "a" "z"; single "-"; range "0" "9"].
Definition lowerHyphenRanges : list (N * N) := [range "a" "z"; single "-"].
Definition letterRanges : list (N * N) := [range "a" "z"; range "A" "Z"].
Definition lowerAlnumRanges : list (N * N) := [range "a" "z"; range "0" "9"].

(** A non-empty run of code units of one class. *)
Definition segment (ranges : list (N * N)) (s : jsstring) : Prop :=
  s <> [] /\ allIn ranges s = true.

(** The addresses [leafPattern] accepts. *)
Definition leafShape (url : jsstring) : Prop :=
  exists pre s1 s2 s3,
    url = pre ++ js "/" ++ s1 ++ js "/" ++ s2 ++ js "/" ++ s3 ++ js "/" /\
    segment lowerRanges s1 /\
    startsWith (js "reference") s1 = false /\
    startsWith (js "en") s1 = false /\
    segment wordRanges s2 /\
    segment lowerDigitRanges s3.

(** The addresses [orderHeadingPattern] accepts. *)
Definition orderHeadingShape (url : jsstring) : Prop :=
  exists pre w,
    url = pre ++ js "reference" ++ js "/" ++ w ++ js "/" /\
    segment wordRanges w.

(** The addresses [familyHeadingPattern] accepts. *)
Definition familyHeadingShape (url : jsstring) : Prop :=
  exists pre w f,
    url = pre ++ js "reference" ++ js "/" ++ w ++ js "/" ++ f ++ js "/" /\
    segment wordRanges w /\
    segment lowerHyphenRanges f.

Section Traversal.

Variable upper : N -> list N.
Variable site : jsstring -> option Document.

(** A candidate on which the loop body does not throw: it is not the
    empty token, and if it is taken for a leaf, its page loads and has all
    that the extractors read. *)
Definition candidateOk (item : jsstring) : Prop :=
  item <> [] /\
  (isLeaf upper item = true ->
   exists d, site item = Some d /\ wellFormed d = true).

End Traversal.

(** The keys a record can have. *)
Definition contextKeys : gset string := {["order"; "family"]}.
Definition detailKeys : gset string :=
  {["rusName"; "latName"; "signs"; "habitat"]}.

Definition queryUrl : jsstring :=
  Eval vm_compute in
    js "https://birds.peipsi.org/poganki/chomga/bolshaya/?print=1".

Definition queryAnchor : Anchor :=
  {| href := queryUrl; textContent := js "Чомга" |}.

Definition collisionUrl : jsstring :=
  Eval vm_compute in js "https://birds.peipsi.org/poganki/reference/chomga/".

Definition collisionAnchor : Anchor :=
  {| href := collisionUrl; textContent := js "ПОГАНКООБРАЗНЫЕ" |}.

Definition yolochnyPage : Document :=
  {| anchors := [];
     article_h1 := Some (js "Ёлочный клёст Loxia curvirostra");
     article_p1 := Some (js "Признаки. Клюв крестом.");
     article_p2 := Some (js "Местообитание. Хвойные леса.") |}.

Definition twoFamilies : list Anchor :=
  [orderAnchor; familyAnchor; leafAnchor; leafAnchor].

End Shapes.

Import Shapes.

(** * Properties *)

(** ** The matcher finds a match exactly when there is one *)

Section MatcherTheory.

Lemma reps_length R min max x y :
  (forall a b, R a b -> (length b <= length a)%nat) ->
  reps R min max x y -> (length y <= length x)%nat.
Proof.
  intros HR H. induction H as [| ? ? ? ? ? _ Hxy _ _ IH]; [lia|].
  apply HR in Hxy. lia.
Qed.

Lemma lang_length r : forall x y, lang r x y -> (length y <= length x)%nat.
Proof.
  induction r as [| neg rs | r1 IH1 r2 IH2 | r1 IH1 r2 IH2
                 | min max g r1 IH1 | r1 IH1 | r1 IH1 |]; simpl; intros x y H.
  - subst. lia.
  - destruct H as (ch & -> & _). simpl. lia.
  - destruct H as (z & H1 & H2). apply IH1 in H1. apply IH2 in H2. lia.
  - destruct H as [H | H]; eauto.
  - eapply reps_length; eauto.
  - eauto.
  - destruct H as [-> _]. lia.
  - destruct H as [-> ->]. lia.
Qed.

Lemma is_Some_orelse {A} (a : option A) (b : option A) :
  is_Some (match a with Some z => Some z | None => b end)
  <-> is_Some a \/ is_Some b.
Proof.
  destruct a as [z|]; split; eauto.
  intros [[? [=]] | H]; done.
Qed.

Lemma RepeatMatcher_spec (m : matcherT) (R : jsstring -> jsstring -> Prop) :
  (forall a b, R a b -> (length b <= length a)%nat) ->
  (forall x c, is_Some (m x c) <-> exists y, R x y /\ is_Some (c y)) ->
  forall fuel min max greedy x c,
    (min + length x < fuel)%nat ->
    is_Some (RepeatMatcher m fuel min max greedy x c)
    <-> exists y, reps R min max x y /\ is_Some (c y).
Proof.
  intros Hlen Hm fuel.
  induction fuel as [|fuel IH]; intros min max greedy x c Hfuel; [lia|].
  cbn [RepeatMatcher]. case_bool_decide as Hmax.
  { split.
    - intros H. exists x. split; [constructor; auto | done].
    - intros (y & Hr & Hc).
      inversion Hr; subst; [done | congruence]. }
  set (d := fun y : jsstring =>
              if (min =? 0)%nat && (length y =? length x)%nat then None
              else RepeatMatcher m fuel (pred min) (pred <$> max) greedy y c).
  assert (Hd : is_Some (m x d) <->
               exists z, (exists y, R x y /\
                 (min = O -> length y <> length x) /\
                 reps R (pred min) (pred <$> max) y z) /\ is_Some (c z)).
  { rewrite Hm. split.
    - intros (y & Hxy & Hdy). unfold d in Hdy.
      destruct ((min =? 0)%nat && (length y =? length x)%nat) eqn:E.
      { by destruct Hdy. }
      assert (Hprog : min = O -> length y <> length x).
      { intros -> Heq. apply Nat.eqb_eq in Heq. rewrite Heq in E. discriminate E. }
      pose proof (Hlen _ _ Hxy) as Hle.
      apply IH in Hdy as (z & Hz & Hc).
      + exists z. split; [exists y|]; auto.
      + destruct min; [specialize (Hprog eq_refl)|]; simpl; lia.
    - intros (z & (y & Hxy & Hprog & Hr) & Hc).
      exists y. split; [done|]. unfold d.
      pose proof (Hlen _ _ Hxy) as Hle.
      destruct ((min =? 0)%nat && (length y =? length x)%nat) eqn:E.
      { apply andb_true_iff in E as [E1 E2].
        apply Nat.eqb_eq in E1, E2. by destruct (Hprog E1). }
      apply IH; [|eauto].
      destruct min; [specialize (Hprog eq_refl)|]; simpl; lia. }
  assert (Hstop : min = O -> is_Some (c x) <->
                  exists y, reps R min max x y /\ y = x /\ is_Some (c y)).
  { intros ->. split.
    - intros H. exists x. split; [constructor; auto | done].
    - by intros (y & _ & -> & H). }
  destruct (min =? 0)%nat eqn:Emin; simpl.
  - apply Nat.eqb_eq in Emin.
    assert (Hboth : is_Some (m x d) \/ is_Some (c x) <->
                    exists y, reps R min max x y /\ is_Some (c y)).
    { rewrite Hd, (Hstop Emin). split.
      - intros [(z & (y & ? & ? & ?) & ?) | (y & ? & ? & ?)].
        + exists z. split; [eapply reps_step|]; eauto.
        + eauto.
      - intros (z & Hr & Hc). inversion Hr; subst.
        + right. exists z. split; [constructor; auto | done].
        + left. exists z. split; [|done]. eauto. }
    destruct greedy; rewrite is_Some_orelse; [done|]. tauto.
  - apply Nat.eqb_neq in Emin. rewrite Hd. split.
    + intros (z & (y & ? & ? & ?) & ?).
      exists z. split; [eapply reps_step|]; eauto.
    + intros (z & Hr & Hc). inversion Hr; subst.
      * tauto.
      * exists z. split; [|done]. eauto.
Qed.

Lemma matcher_spec r :
  forall x c, is_Some (matcher r x c) <-> exists y, lang r x y /\ is_Some (c y).
Proof.
  induction r as [| neg rs | r1 IH1 r2 IH2 | r1 IH1 r2 IH2
                 | min max g r1 IH1 | r1 IH1 | r1 IH1 |];
    intros x c; cbn [matcher lang].
  - split; [eauto | by intros (y & -> & H)].
  - destruct x as [|ch y].
    { split; [by intros [] | by intros (? & (? & ? & _) & _)]. }
    destruct (xorb neg (inRanges ch rs)) eqn:E.
    + split; [eauto 6 | intros (? & (? & [= <- <-] & _) & ?); done].
    + split; [by intros [] | intros (? & (? & [= <- <-] & ?) & _); congruence].
  - rewrite IH1. split.
    + intros (z & H1 & H2). apply IH2 in H2 as (y & ? & ?). eauto 6.
    + intros (y & (z & H1 & H2) & Hc). exists z. split; [done|].
      apply IH2. eauto.
  - rewrite is_Some_orelse, IH1, IH2. split.
    + intros [(y & ? & ?) | (y & ? & ?)]; eauto.
    + intros (y & [?|?] & ?); eauto.
  - apply RepeatMatcher_spec; [apply lang_length | apply IH1 | lia].
  - apply IH1.
  - destruct (matcher r1 x Some) as [z|] eqn:E.
    + assert (Hz : is_Some (matcher r1 x Some)) by (rewrite E; eauto).
      apply IH1 in Hz as (y & Hy & _). split; [by intros [] |].
      intros (? & (_ & Hno) & _). by destruct (Hno y).
    + split.
      * intros H. exists x. split; [|done]. split; [done|].
        intros z Hz.
        assert (Hs : is_Some (matcher r1 x Some)) by (apply IH1; eauto).
        rewrite E in Hs. by destruct Hs.
      * by intros (y & (-> & _) & H).
  - destruct x; split.
    + eauto.
    + by intros (? & (_ & ->) & ?).
    + by intros [].
    + by intros (? & ([=] & _) & _).
Qed.

(** A match anywhere in the input makes [s.match(r)] return a result. *)
Lemma execFrom_complete r pre suf y :
  lang r suf y -> forall i, is_Some (execFrom r i (pre ++ suf)).
Proof.
  intros Hl. induction pre as [|a pre IH]; intros i.
  - assert (Hs : is_Some (matcher r suf Some)) by (apply matcher_spec; eauto).
    destruct suf; simpl; destruct Hs as [z ->]; eauto.
  - simpl. destruct (matcher r (a :: pre ++ suf) Some); eauto.
Qed.

Lemma jsMatch_complete r pre suf y :
  lang r suf y -> is_Some (jsMatch (pre ++ suf) r).
Proof. intros. eapply execFrom_complete; eauto. Qed.

End MatcherTheory.

(** ** The loop body *)

Section EngineFacts.

Variable upper : N -> list N.
Variable site : jsstring -> option Document.

Lemma truthy_extractOrder item :
  truthy (extractOrder upper item) = true ->
  extractOrder upper item = Some item /\ item <> [].
Proof.
  unfold extractOrder. destruct (strictEq item (toUpperCase upper item)); [|done].
  destruct item; done.
Qed.

Lemma truthy_extractFamily item family :
  extractFamily upper item = inr family -> truthy family = true ->
  family = Some item.
Proof.
  destruct item as [|u0 item]; simpl; [done|]. intros [= <-].
  destruct (strictEq [u0] (toUpperCase upper [u0])); done.
Qed.

(** The loop body is the dispatch on [classify]. *)
Lemma iteration_classify item st :
  iteration upper site item st =
  match classify upper item with
  | inl e => Throw e st
  | inr (OrderMarker token) => Return tt (withOrder token st)
  | inr (FamilyMarker token) => Return tt (withFamily token st)
  | inr (Leaf url) => visitLeaf site url st
  end.
Proof.
  unfold iteration, classify, mbind, M_bind, bind.
  destruct (extractFamily upper item) as [e | family] eqn:Ef; simpl; [done|].
  destruct (truthy (extractOrder upper item)) eqn:Eo.
  - apply truthy_extractOrder in Eo as [-> _]. done.
  - destruct (truthy family) eqn:Et; [|done].
    by rewrite (truthy_extractFamily _ _ Ef Et).
Qed.

Lemma classify_uppercase tok :
  tok <> [] -> toUpperCase upper tok = tok ->
  classify upper tok = inr (OrderMarker tok).
Proof.
  intros Hne Hup. unfold classify, extractOrder, strictEq.
  destruct tok as [|u0 tok]; [done|]. cbn [extractFamily].
  rewrite bool_decide_eq_true_2 by done. done.
Qed.

Lemma classify_capitalised u0 tok :
  toUpperCase upper [u0] = [u0] ->
  toUpperCase upper (u0 :: tok) <> u0 :: tok ->
  classify upper (u0 :: tok) = inr (FamilyMarker (u0 :: tok)).
Proof.
  intros Hfirst Hnot. unfold classify, extractOrder, extractFamily, strictEq.
  rewrite (bool_decide_eq_false_2 (u0 :: tok = _)) by congruence.
  rewrite bool_decide_eq_true_2 by done. done.
Qed.

Lemma classify_lowercase u0 tok :
  toUpperCase upper [u0] <> [u0] ->
  toUpperCase upper (u0 :: tok) <> u0 :: tok ->
  classify upper (u0 :: tok) = inr (Leaf (u0 :: tok)).
Proof.
  intros Hfirst Hnot. unfold classify, extractOrder, extractFamily, strictEq.
  rewrite (bool_decide_eq_false_2 (u0 :: tok = _)) by congruence.
  rewrite bool_decide_eq_false_2 by congruence. done.
Qed.

Lemma forOf_app pre post st :
  forOf upper site (pre ++ post) st =
  match forOf upper site pre st with
  | Return _ st' => forOf upper site post st'
  | Throw e st' => Throw e st'
  end.
Proof.
  revert st. induction pre as [|item pre IH]; intros st; [done|].
  cbn [app forOf]. unfold mbind, M_bind, bind.
  destruct (iteration upper site item st); [apply IH | done].
Qed.

Lemma forOf_cons item rest st :
  forOf upper site (item :: rest) st =
  match iteration upper site item st with
  | Return _ st' => forOf upper site rest st'
  | Throw e st' => Throw e st'
  end.
Proof. reflexivity. Qed.

End EngineFacts.

(** ** Order and family markers *)

(** C5, as stated, at the empty token: the token passes the upper-case test
    of [extractOrder], yet no order is recorded; the iteration ends in a
    [TypeError]. *)
Lemma empty_token_uppercase_yet_no_order :
  toUpperCase upperLatinCyrillic [] = [] /\
  extractOrder upperLatinCyrillic [] = Some [] /\
  classify upperLatinCyrillic [] = inl TypeError /\
  iteration upperLatinCyrillic sampleSite [] (startAt (listing [emptyAnchor]))
  = Throw TypeError (startAt (listing [emptyAnchor])).
Proof. repeat split. Qed.

(** C5 (amended): for every non-empty candidate token that is entirely
    upper case, the classification is an order marker carrying that token
    and not a family marker, and the loop body stores the token in the
    [order] field of the classification; it visits no page, leaves the
    [family] field and the records alone. *)
Theorem uppercase_token_sets_order upper site tok st :
  tok <> [] ->
  toUpperCase upper tok = tok ->
  classify upper tok = inr (OrderMarker tok) /\
  isFamilyMarker upper tok = false /\
  iteration upper site tok st = Return tt (withOrder tok st) /\
  birdClassification (withOrder tok st) !! "order" = Some tok /\
  birdClassification (withOrder tok st) !! "family"
  = birdClassification st !! "family" /\
  visited (withOrder tok st) = visited st /\
  page (withOrder tok st) = page st /\
  birdsData (withOrder tok st) = birdsData st.
Proof.
  intros Hne Hup. pose proof (classify_uppercase upper tok Hne Hup) as Hc.
  split; [done|]. split; [unfold isFamilyMarker; by rewrite Hc|].
  split; [by rewrite iteration_classify, Hc|].
  simpl. split; [apply lookup_insert_eq|].
  split; [by rewrite lookup_insert_ne|]. done.
Qed.

Lemma uppercase_token_sets_order_witness :
  let tok := js "ПОГАНКООБРАЗНЫЕ" in
  let st := startAt (listing [orderAnchor]) in
  tok <> [] /\
  toUpperCase upperLatinCyrillic tok = tok /\
  iteration upperLatinCyrillic sampleSite tok st = Return tt (withOrder tok st).
Proof.
  intros tok st.
  assert (Hne : tok <> []) by (vm_compute; discriminate).
  assert (Hup : toUpperCase upperLatinCyrillic tok = tok)
    by (vm_compute; reflexivity).
  split; [exact Hne|]. split; [exact Hup|].
  exact (proj1 (proj2 (proj2
    (uppercase_token_sets_order upperLatinCyrillic sampleSite tok st Hne Hup)))).
Defined.

(** C6: for every heading token whose first character is upper case and
    which is not entirely upper case, the classification is a family marker
    carrying that token, and the loop body stores the token in the [family]
    field of the classification; it visits no page, leaves the [order]
    field and the records alone. *)
Theorem capitalised_token_sets_family upper site u0 rest st :
  let tok := u0 :: rest in
  toUpperCase upper [u0] = [u0] ->
  toUpperCase upper tok <> tok ->
  classify upper tok = inr (FamilyMarker tok) /\
  iteration upper site tok st = Return tt (withFamily tok st) /\
  birdClassification (withFamily tok st) !! "family" = Some tok /\
  birdClassification (withFamily tok st) !! "order"
  = birdClassification st !! "order" /\
  visited (withFamily tok st) = visited st /\
  page (withFamily tok st) = page st /\
  birdsData (withFamily tok st) = birdsData st.
Proof.
  intros tok Hfirst Hnot.
  pose proof (classify_capitalised upper u0 rest Hfirst Hnot) as Hc.
  fold tok in Hc.
  split; [done|]. split; [by rewrite iteration_classify, Hc|].
  simpl. split; [apply lookup_insert_eq|].
  split; [by rewrite lookup_insert_ne|]. done.
Qed.

Lemma capitalised_token_sets_family_witness :
  let u0 := codeUnit "П" in
  let rest := js "оганковые" in
  let st := startAt (listing [familyAnchor]) in
  toUpperCase upperLatinCyrillic [u0] = [u0] /\
  toUpperCase upperLatinCyrillic (u0 :: rest) <> u0 :: rest /\
  iteration upperLatinCyrillic sampleSite (u0 :: rest) st
  = Return tt (withFamily (u0 :: rest) st).
Proof.
  intros u0 rest st.
  assert (H1 : toUpperCase upperLatinCyrillic [u0] = [u0])
    by (vm_compute; reflexivity).
  assert (H2 : toUpperCase upperLatinCyrillic (u0 :: rest) <> u0 :: rest)
    by (vm_compute; discriminate).
  split; [exact H1|]. split; [exact H2|].
  exact (proj1 (proj2
    (capitalised_token_sets_family upperLatinCyrillic sampleSite
       u0 rest st H1 H2))).
Defined.

(** ** Visiting a leaf *)

Section LeafFacts.

Variable upper : N -> list N.
Variable site : jsstring -> option Document.

(** [visitLeaf] navigates, extracts and pushes; the first failure ends it,
    before anything is pushed. *)
Lemma visitLeaf_spec url st :
  visitLeaf site url st =
  match site url with
  | None => Throw (NavigationError url) (strandedAt url st)
  | Some d =>
      match extractDetails d with
      | inl e => Throw e (arrivedAt url d st)
      | inr details => Return tt (recorded url d details st)
      end
  end.
Proof.
  unfold visitLeaf, extractRusName, extractLatName, extractSigns,
    extractHabitat, extractDetails, goto, evalTextContent, push,
    mbind, M_bind, bind, lift, ret, throw.
  destruct (site url) as [d|]; [|done].
  cbn [page querySelector].
  destruct (article_h1 d) as [title|] eqn:Eh; [|done].
  destruct (firstMatchTrimmed title regExpRusName); [done|].
  cbn [page]. rewrite Eh.
  destruct (firstMatchTrimmed title regExpLatName); [done|].
  cbn [page].
  destruct (article_p1 d); [|done].
  cbn [page].
  destruct (article_p2 d); done.
Qed.

Lemma wellFormed_extractDetails d :
  wellFormed d = true <-> exists details, extractDetails d = inr details.
Proof.
  unfold wellFormed, extractDetails, firstMatchTrimmed.
  destruct (article_h1 d) as [title|]; cbv beta iota;
    [|split; [done | by intros [? ?]]].
  destruct (jsMatch title regExpRusName) as [[? ?]|];
    destruct (jsMatch title regExpLatName) as [[? ?]|];
    destruct (article_p1 d), (article_p2 d);
    rewrite ?andb_true_iff, ?bool_decide_eq_true;
    (split; [intros H | intros [? H]]);
    try discriminate H; eauto;
    destruct H as [[? ?] [? ?]]; discriminate.
Qed.

Lemma extractDetails_no_context d details :
  extractDetails d = inr details ->
  details !! "order" = None /\ details !! "family" = None.
Proof.
  unfold extractDetails. intros H.
  repeat match type of H with
         | match ?x with _ => _ end = _ => destruct x; try discriminate H
         end.
  injection H as <-. split; by simplify_map_eq.
Qed.

Lemma getBirdsData_spec st :
  getBirdsData upper site st =
  match forOf upper site (getItems (page st)) (initLocals st) with
  | Return _ st' => Return (birdsData st') st'
  | Throw e st' => Throw e st'
  end.
Proof. reflexivity. Qed.

End LeafFacts.

(** ** Tokens that are no marker *)

(** C2, as stated, at a lower-case heading label, at a leaf address, and
    at a label that begins with a digit: none is entirely upper case, none
    begins with an upper-case character, none is discarded.  The engine
    navigates to the lower-case label, which ends the traversal before the
    next candidate; it navigates to the leaf address and pushes a record
    for it; and it stores the label that begins with a digit as the
    family, because a digit is its own upper-case form. *)
Lemma tokens_outside_both_cases_not_discarded :
  let upper := upperLatinCyrillic in
  let st := startAt (listing []) in
  toUpperCase upper lowerLabel <> lowerLabel /\
  toUpperCase upper (take 1 lowerLabel) <> take 1 lowerLabel /\
  iteration upper sampleSite lowerLabel st
  = Throw (NavigationError lowerLabel) (strandedAt lowerLabel st) /\
  visited (strandedAt lowerLabel st) = [lowerLabel] /\
  forOf upper sampleSite [lowerLabel; leafUrl] st
  = Throw (NavigationError lowerLabel) (strandedAt lowerLabel st) /\
  toUpperCase upper leafUrl <> leafUrl /\
  toUpperCase upper (take 1 leafUrl) <> take 1 leafUrl /\
  visited (finalState (iteration upper sampleSite leafUrl st)) = [leafUrl] /\
  length (birdsData (finalState (iteration upper sampleSite leafUrl st))) = 1%nat /\
  toUpperCase upper (js "1abc") <> js "1abc" /\
  toUpperCase upper (take 1 (js "1abc")) = take 1 (js "1abc") /\
  iteration upper sampleSite (js "1abc") st
  = Return tt (withFamily (js "1abc") st) /\
  birdClassification (withFamily (js "1abc") st) !! "family"
  = Some (js "1abc").
Proof. vm_compute. repeat split; discriminate. Qed.

(** C2 (amended): a non-empty candidate token that is not entirely upper
    case is never discarded.  If upper-casing changes its first character
    (a lower-case letter), the token is taken for the address of a leaf:
    the loop body updates no field of the classification and navigates to
    the token; when the navigation and the four extractions succeed it
    pushes exactly one record, the extracted fields merged with the
    classification, and otherwise the iteration ends in an error with no
    record pushed.  If upper-casing leaves its first character as it is (a
    digit, a blank, punctuation; an upper-case letter as well), the loop
    body stores the token as the family, visits no page and pushes no
    record. *)
Theorem non_uppercase_token_is_not_discarded upper site u0 rest st :
  let tok := u0 :: rest in
  toUpperCase upper tok <> tok ->
  (toUpperCase upper [u0] <> [u0] ->
   classify upper tok = inr (Leaf tok) /\
   iteration upper site tok st = visitLeaf site tok st /\
   visited (finalState (iteration upper site tok st)) = visited st ++ [tok] /\
   birdClassification (finalState (iteration upper site tok st))
   = birdClassification st /\
   (forall d details, site tok = Some d -> extractDetails d = inr details ->
      iteration upper site tok st = Return tt (recorded tok d details st) /\
      birdsData (recorded tok d details st)
      = birdsData st ++ [details ∪ birdClassification st]) /\
   (forall d, site tok = Some d -> wellFormed d = false ->
      exists e, iteration upper site tok st = Throw e (arrivedAt tok d st) /\
                birdsData (arrivedAt tok d st) = birdsData st) /\
   (site tok = None ->
      iteration upper site tok st
      = Throw (NavigationError tok) (strandedAt tok st) /\
      birdsData (strandedAt tok st) = birdsData st)) /\
  (toUpperCase upper [u0] = [u0] ->
   classify upper tok = inr (FamilyMarker tok) /\
   iteration upper site tok st = Return tt (withFamily tok st) /\
   birdClassification (withFamily tok st) !! "family" = Some tok /\
   birdClassification (withFamily tok st) !! "order"
   = birdClassification st !! "order" /\
   visited (withFamily tok st) = visited st /\
   page (withFamily tok st) = page st /\
   birdsData (withFamily tok st) = birdsData st).
Proof.
  intros tok Hnot. split; intros Hfirst.
  - pose proof (classify_lowercase upper u0 rest Hfirst Hnot) as Hc.
    fold tok in Hc.
    assert (Hit : iteration upper site tok st = visitLeaf site tok st)
      by (by rewrite iteration_classify, Hc).
    split; [done|]. split; [done|]. rewrite Hit, visitLeaf_spec.
    split; [|split; [|split; [|split]]].
    + destruct (site tok) as [d|]; [destruct (extractDetails d)|]; done.
    + destruct (site tok) as [d|]; [destruct (extractDetails d)|]; done.
    + intros d details -> ->. done.
    + intros d Hd Hwf. rewrite Hd.
      destruct (extractDetails d) as [e|details] eqn:Ed; [eauto|].
      assert (wellFormed d = true) by (apply wellFormed_extractDetails; eauto).
      congruence.
    + by intros ->.
  - pose proof (classify_capitalised upper u0 rest Hfirst Hnot) as Hc.
    fold tok in Hc.
    split; [done|]. split; [by rewrite iteration_classify, Hc|].
    simpl. split; [apply lookup_insert_eq|].
    split; [by rewrite lookup_insert_ne|]. done.
Qed.

Lemma non_uppercase_token_is_not_discarded_witness :
  let h := codeUnit "h" in
  let rest := drop 1 leafUrl in
  let one := codeUnit "1" in
  let st := startAt (listing [leafAnchor]) in
  (toUpperCase upperLatinCyrillic (h :: rest) <> h :: rest /\
   toUpperCase upperLatinCyrillic [h] <> [h] /\
   iteration upperLatinCyrillic sampleSite (h :: rest) st
   = visitLeaf sampleSite (h :: rest) st) /\
  (toUpperCase upperLatinCyrillic (one :: js "abc") <> one :: js "abc" /\
   toUpperCase upperLatinCyrillic [one] = [one] /\
   iteration upperLatinCyrillic sampleSite (one :: js "abc") st
   = Return tt (withFamily (one :: js "abc") st)).
Proof.
  intros h rest one st.
  assert (H1 : toUpperCase upperLatinCyrillic (h :: rest) <> h :: rest)
    by (vm_compute; discriminate).
  assert (H2 : toUpperCase upperLatinCyrillic [h] <> [h])
    by (vm_compute; discriminate).
  assert (H3 : toUpperCase upperLatinCyrillic (one :: js "abc")
               <> one :: js "abc")
    by (vm_compute; discriminate).
  assert (H4 : toUpperCase upperLatinCyrillic [one] = [one])
    by (vm_compute; reflexivity).
  split.
  - split; [exact H1|]. split; [exact H2|].
    exact (proj1 (proj2 (proj1
      (non_uppercase_token_is_not_discarded upperLatinCyrillic sampleSite
         h rest st H1) H2))).
  - split; [exact H3|]. split; [exact H4|].
    exact (proj1 (proj2 (proj2
      (non_uppercase_token_is_not_discarded upperLatinCyrillic sampleSite
         one (js "abc") st H3) H4))).
Defined.

(** ** Errors end the traversal *)

(** C10: an anchor with a heading address and an empty text yields the
    empty token, which [getItems] keeps; on that token the order check
    returns the empty string, which is falsy, and the family check reads
    [toUpperCase] from an undefined first character: a [TypeError] that
    ends [getBirdsData] in the state reached before that candidate. *)
Theorem empty_heading_text_aborts upper site st0 before elem after st :
  anchors (page st0) = before ++ elem :: after ->
  jsMatch (href elem) leafPattern = None ->
  is_Some (jsMatch (href elem) orderHeadingPattern)
  \/ is_Some (jsMatch (href elem) familyHeadingPattern) ->
  textContent elem = [] ->
  forOf upper site (omap anchorToken before) (initLocals st0) = Return tt st ->
  anchorToken elem = Some [] /\
  getItems (page st0) = omap anchorToken before ++ [] :: omap anchorToken after /\
  extractOrder upper [] = Some [] /\
  truthy (extractOrder upper []) = false /\
  extractFamily upper [] = inl TypeError /\
  iteration upper site [] st = Throw TypeError st /\
  getBirdsData upper site st0 = Throw TypeError st.
Proof.
  intros Hanchors Hleaf Hheading Htext Hpre.
  assert (Htok : anchorToken elem = Some []).
  { unfold anchorToken. rewrite Hleaf, Htext.
    destruct Hheading as [[? ->] | [? ->]]; [done|].
    by destruct (jsMatch (href elem) orderHeadingPattern). }
  assert (Hitems : getItems (page st0)
                   = omap anchorToken before ++ [] :: omap anchorToken after).
  { unfold getItems. rewrite Hanchors, omap_app. simpl. by rewrite Htok. }
  repeat split; try done.
  rewrite getBirdsData_spec, Hitems, forOf_app, Hpre. done.
Qed.

Lemma empty_heading_text_aborts_witness :
  let st0 := startAt (listing [orderAnchor; emptyAnchor; leafAnchor]) in
  getBirdsData upperLatinCyrillic sampleSite st0
  = Throw TypeError (withOrder (js "ПОГАНКООБРАЗНЫЕ") st0).
Proof.
  intros st0.
  refine (proj2 (proj2 (proj2 (proj2 (proj2 (proj2
    (empty_heading_text_aborts upperLatinCyrillic sampleSite st0
       [orderAnchor] emptyAnchor [leafAnchor] _ _ _ _ _ _))))))).
  - reflexivity.
  - vm_compute. reflexivity.
  - left. vm_compute. eauto.
  - reflexivity.
  - vm_compute. reflexivity.
Defined.

(** C9: a leaf page on which an extraction fails (a missing second
    paragraph, for one) ends [getBirdsData] with that error at that leaf:
    the records are those pushed before it, and the last address visited is
    the leaf's, whatever candidates follow. *)
Theorem malformed_leaf_aborts upper site st0 pre leaf post st d :
  getItems (page st0) = pre ++ leaf :: post ->
  forOf upper site pre (initLocals st0) = Return tt st ->
  classify upper leaf = inr (Leaf leaf) ->
  site leaf = Some d ->
  wellFormed d = false ->
  exists e,
    extractDetails d = inl e /\
    getBirdsData upper site st0 = Throw e (arrivedAt leaf d st) /\
    birdsData (arrivedAt leaf d st) = birdsData st /\
    visited (arrivedAt leaf d st) = visited st ++ [leaf] /\
    (forall title signs,
       article_h1 d = Some title -> article_p1 d = Some signs ->
       article_p2 d = None ->
       is_Some (jsMatch title regExpRusName) ->
       is_Some (jsMatch title regExpLatName) ->
       e = ElementNotFound ArticleP2).
Proof.
  intros Hitems Hpre Hleaf Hsite Hwf.
  destruct (extractDetails d) as [e|details] eqn:Ed.
  2: { assert (wellFormed d = true) by (apply wellFormed_extractDetails; eauto).
       congruence. }
  exists e. split; [done|]. split.
  { rewrite getBirdsData_spec, Hitems, forOf_app, Hpre, forOf_cons.
    by rewrite iteration_classify, Hleaf, visitLeaf_spec, Hsite, Ed. }
  split; [done|]. split; [done|].
  intros title signs Hh Hp1 Hp2 [[? ?] Hr] [[? ?] Hl].
  unfold extractDetails, firstMatchTrimmed in Ed.
  rewrite Hh, Hr, Hl, Hp1, Hp2 in Ed. congruence.
Qed.

Lemma malformed_leaf_aborts_witness :
  let st0 := startAt (listing [orderAnchor; familyAnchor; leafAnchor;
                               brokenAnchor; leafAnchor]) in
  exists st,
    getBirdsData upperLatinCyrillic sampleSite st0
    = Throw (ElementNotFound ArticleP2) st /\
    birdsData st = [chomgaRecord] /\
    visited st = [leafUrl; brokenUrl].
Proof.
  intros st0.
  destruct (forOf upperLatinCyrillic sampleSite
              [js "ПОГАНКООБРАЗНЫЕ"; js "Поганковые"; leafUrl] (initLocals st0))
    as [[] st | e st] eqn:Hpre; [|vm_compute in Hpre; discriminate Hpre].
  destruct (malformed_leaf_aborts upperLatinCyrillic sampleSite st0
              [js "ПОГАНКООБРАЗНЫЕ"; js "Поганковые"; leafUrl]
              brokenUrl [leafUrl] st brokenPage)
    as (e & He & Hrun & Hdata & Hvis & Hp2).
  - vm_compute. reflexivity.
  - exact Hpre.
  - vm_compute. reflexivity.
  - vm_compute. reflexivity.
  - vm_compute. reflexivity.
  - exists (arrivedAt brokenUrl brokenPage st).
    assert (e = ElementNotFound ArticleP2) as ->.
    { vm_compute in He. congruence. }
    split; [exact Hrun|]. rewrite Hdata, Hvis.
    vm_compute in Hpre. injection Hpre as <-. split; reflexivity.
Defined.

(** ** The classification carried into the records *)

Section ContextCarry.

Variable upper : N -> list N.
Variable site : jsstring -> option Document.

Lemma classify_token item v :
  classify upper item = inr v ->
  v = OrderMarker item \/ v = FamilyMarker item \/ v = Leaf item.
Proof.
  unfold classify. destruct (extractFamily upper item); [done|].
  intros [= <-].
  destruct (truthy (extractOrder upper item)); [|destruct (truthy _)]; auto.
Qed.

Lemma carried_cons_marker isMarker item seen before :
  isMarker item = true ->
  carried isMarker (item :: seen) before = carried isMarker seen (Some item).
Proof.
  intros H. unfold carried, lastMarker. simpl. rewrite H, last_cons.
  by destruct (last _).
Qed.

Lemma carried_cons_other isMarker item seen before :
  isMarker item = false ->
  carried isMarker (item :: seen) before = carried isMarker seen before.
Proof. intros H. unfold carried, lastMarker. simpl. by rewrite H. Qed.

(** The invariant of the loop: the records pushed by the candidates
    [items] are one per leaf, in order, and each carries the classification
    as the markers before its leaf left it. *)
Lemma forOf_records items : forall st st',
  forOf upper site items st = Return tt st' ->
  exists new,
    birdsData st' = birdsData st ++ new /\
    length new = length (List.filter (isLeaf upper) items) /\
    forall pre leaf post,
      items = pre ++ leaf :: post -> isLeaf upper leaf = true ->
      exists r,
        new !! length (List.filter (isLeaf upper) pre) = Some r /\
        r !! "order" = carried (isOrderMarker upper) pre
                         (birdClassification st !! "order") /\
        r !! "family" = carried (isFamilyMarker upper) pre
                          (birdClassification st !! "family").
Proof.
  induction items as [|item items IH]; intros st st' Hrun.
  { injection Hrun as <-. exists []. rewrite app_nil_r.
    repeat split. intros [|? ?] ? ? [=]. }
  rewrite forOf_cons, iteration_classify in Hrun.
  destruct (classify upper item) as [e|v] eqn:Hc; [done|].
  destruct (classify_token _ _ Hc) as [-> | [-> | ->]].
  - (* an order marker *)
    apply IH in Hrun as (new & Hdata & Hlen & Hrec).
    assert (Ho : isOrderMarker upper item = true)
      by (unfold isOrderMarker; by rewrite Hc).
    assert (Hf : isFamilyMarker upper item = false)
      by (unfold isFamilyMarker; by rewrite Hc).
    assert (Hl : isLeaf upper item = false) by (unfold isLeaf; by rewrite Hc).
    exists new. simpl. rewrite Hl. split; [done|]. split; [done|].
    intros [|item' pre] leaf post Heq Hleaf; simpl in Heq;
      injection Heq as <- ->; [congruence|].
    simpl. rewrite Hl. destruct (Hrec pre leaf post eq_refl Hleaf) as (r & ? & Hro & Hrf).
    exists r. split; [done|].
    rewrite carried_cons_marker, carried_cons_other by done.
    rewrite Hro, Hrf. simpl. rewrite lookup_insert_eq.
    by rewrite lookup_insert_ne.
  - (* a family marker *)
    apply IH in Hrun as (new & Hdata & Hlen & Hrec).
    assert (Ho : isOrderMarker upper item = false)
      by (unfold isOrderMarker; by rewrite Hc).
    assert (Hf : isFamilyMarker upper item = true)
      by (unfold isFamilyMarker; by rewrite Hc).
    assert (Hl : isLeaf upper item = false) by (unfold isLeaf; by rewrite Hc).
    exists new. simpl. rewrite Hl. split; [done|]. split; [done|].
    intros [|item' pre] leaf post Heq Hleaf; simpl in Heq;
      injection Heq as <- ->; [congruence|].
    simpl. rewrite Hl. destruct (Hrec pre leaf post eq_refl Hleaf) as (r & ? & Hro & Hrf).
    exists r. split; [done|].
    rewrite (carried_cons_other (isOrderMarker upper)),
      (carried_cons_marker (isFamilyMarker upper)) by done.
    rewrite Hro, Hrf. simpl. rewrite lookup_insert_eq.
    by rewrite lookup_insert_ne.
  - (* a leaf *)
    rewrite visitLeaf_spec in Hrun.
    destruct (site item) as [d|]; [|done].
    destruct (extractDetails d) as [e|details] eqn:Ed; [done|].
    apply IH in Hrun as (new & Hdata & Hlen & Hrec).
    destruct (extractDetails_no_context _ _ Ed) as [Hno Hnf].
    assert (Ho : isOrderMarker upper item = false)
      by (unfold isOrderMarker; by rewrite Hc).
    assert (Hf : isFamilyMarker upper item = false)
      by (unfold isFamilyMarker; by rewrite Hc).
    assert (Hl : isLeaf upper item = true) by (unfold isLeaf; by rewrite Hc).
    exists ((details ∪ birdClassification st) :: new).
    simpl in Hdata |- *. rewrite Hl. simpl.
    split; [by rewrite Hdata, <- app_assoc|]. split; [by rewrite Hlen|].
    intros [|item' pre] leaf post Heq Hleaf; simpl in Heq;
      injection Heq as <- ->; simpl.
    + eexists. split; [done|]. unfold carried. simpl.
      by rewrite !lookup_union_r.
    + rewrite Hl. simpl.
      destruct (Hrec pre leaf post eq_refl Hleaf) as (r & ? & Hro & Hrf).
      exists r. by rewrite !carried_cons_other.
Qed.

End ContextCarry.

(** C1: in the records [getBirdsData] returns there is one record per leaf
    candidate, in traversal order; its [order] field is the token of the
    last order marker among the candidates before the leaf, its [family]
    field the token of the last family marker among them, and a field of
    which no marker came before the leaf is absent from the record. *)
Theorem context_carry upper site st0 records st' :
  getBirdsData upper site st0 = Return records st' ->
  let items := getItems (page st0) in
  length records = length (List.filter (isLeaf upper) items) /\
  forall pre leaf post,
    items = pre ++ leaf :: post -> isLeaf upper leaf = true ->
    exists r,
      records !! length (List.filter (isLeaf upper) pre) = Some r /\
      r !! "order" = lastMarker (isOrderMarker upper) pre /\
      r !! "family" = lastMarker (isFamilyMarker upper) pre.
Proof.
  intros Hrun items. rewrite getBirdsData_spec in Hrun. fold items in Hrun.
  destruct (forOf upper site items (initLocals st0)) as [[] st|] eqn:Hloop; [|done].
  injection Hrun as <- <-.
  apply forOf_records in Hloop as (new & Hdata & Hlen & Hrec).
  simpl in Hdata. subst new. split; [done|].
  intros pre leaf post Heq Hleaf.
  destruct (Hrec pre leaf post Heq Hleaf) as (r & Hr & Hro & Hrf).
  exists r. split; [done|]. rewrite Hro, Hrf. unfold carried. simpl.
  rewrite !lookup_empty. by destruct (lastMarker _ _), (lastMarker _ _).
Qed.

Lemma context_carry_witness :
  let st0 := startAt (listing [orderAnchor; familyAnchor; leafAnchor]) in
  exists records st' r,
    getBirdsData upperLatinCyrillic sampleSite st0 = Return records st' /\
    records !! 0%nat = Some r /\
    r !! "order" = Some (js "ПОГАНКООБРАЗНЫЕ") /\
    r !! "family" = Some (js "Поганковые").
Proof.
  intros st0.
  destruct (getBirdsData upperLatinCyrillic sampleSite st0)
    as [records st'|e st'] eqn:Hrun; [|vm_compute in Hrun; discriminate Hrun].
  destruct (context_carry upperLatinCyrillic sampleSite st0 records st' Hrun)
    as [_ Hrec].
  destruct (Hrec [js "ПОГАНКООБРАЗНЫЕ"; js "Поганковые"] leafUrl [])
    as (r & Hr & Hro & Hrf).
  - vm_compute. reflexivity.
  - vm_compute. reflexivity.
  - exists records, st', r. split; [reflexivity|]. split; [exact Hr|].
    split; [rewrite Hro | rewrite Hrf]; vm_compute; reflexivity.
Defined.

(** ** Link discovery *)

Section PatternFacts.

Lemma inRanges_single u : inRanges u [(u, u)] = true.
Proof. unfold inRanges. simpl. by rewrite N.leb_refl. Qed.

Lemma lang_class rs u y :
  inRanges u rs = true -> lang (Class false rs) (u :: y) y.
Proof. intros H. exists u. by rewrite H. Qed.

Lemma lang_star_class rs g w y :
  allIn rs w = true -> lang (Quant 0 None g (Class false rs)) (w ++ y) y.
Proof.
  induction w as [|u w IH]; simpl; intros H.
  - constructor. auto.
  - apply andb_true_iff in H as [Hu Hw].
    eapply reps_step; [done | by apply lang_class | simpl; lia | by apply IH].
Qed.

Lemma lang_plus_class rs g w y :
  w <> [] -> allIn rs w = true ->
  lang (Quant 1 None g (Class false rs)) (w ++ y) y.
Proof.
  destruct w as [|u w]; [done|]. intros _ H.
  apply andb_true_iff in H as [Hu Hw].
  eapply reps_step; [done | by apply lang_class | done |].
  by apply (lang_star_class rs g).
Qed.

Lemma lang_units_inv p x z :
  lang (seq (map (fun u => Class false [(u, u)]) p)) x z -> x = p ++ z.
Proof.
  revert x. induction p as [|u p IH]; simpl; intros x H; [done|].
  destruct H as (y & (ch & -> & Hch) & Hrest). apply IH in Hrest as ->.
  unfold inRanges in Hch. simpl in Hch.
  rewrite orb_false_r, andb_true_iff, !N.leb_le in Hch.
  f_equal. lia.
Qed.

Lemma startsWith_spec p s : startsWith p s = true <-> exists z, s = p ++ z.
Proof.
  revert s. induction p as [|a p IH]; intros s; simpl.
  - split; eauto.
  - destruct s as [|b s]; [split; [done | by intros [? ?]]|].
    rewrite andb_true_iff, N.eqb_eq, IH. split.
    + intros [-> [z ->]]. eauto.
    + intros [z [= -> ->]]. eauto.
Qed.

(** A prefix test on a path segment does not look past the segment when
    the separator does not occur in the prefix. *)
Lemma startsWith_segment p s sep rest :
  sep ∉ p -> startsWith p (s ++ sep :: rest) = true -> startsWith p s = true.
Proof.
  revert s. induction p as [|a p IH]; intros s Hsep; simpl; [done|].
  destruct s as [|b s]; simpl.
  - rewrite andb_true_iff, N.eqb_eq. intros [-> _]. set_solver.
  - rewrite !andb_true_iff. intros [? ?]. split; [done|].
    apply IH; [set_solver | done].
Qed.

Lemma elem_of_getItems d elem tok :
  elem ∈ anchors d -> anchorToken elem = Some tok -> tok ∈ getItems d.
Proof. intros. apply list_elem_of_omap. eauto. Qed.

End PatternFacts.

(** C3, as stated, at an address whose first segment only begins with
    [en], and at one whose first segment has a capital letter: the segment
    is neither [reference] nor [en], the other two segments are as
    required, yet the anchor yields no candidate. *)
Lemma enot_address_is_dropped :
  let lowerDigits := [range "a" "z"; single "-"; range "0" "9"] in
  href enotAnchor
  = js "https://birds.peipsi.org" ++ js "/" ++ js "enot" ++ js "/"
    ++ js "chomga" ++ js "/" ++ js "bolshaya" ++ js "/" /\
  js "enot" <> js "reference" /\ js "enot" <> js "en" /\
  allIn wordRanges (js "chomga") = true /\
  allIn lowerDigits (js "bolshaya") = true /\
  anchorToken enotAnchor = None /\
  getItems (listing [enotAnchor; leafAnchor]) = [leafUrl] /\
  href capitalAnchor
  = js "https://birds.peipsi.org" ++ js "/" ++ js "Poganki" ++ js "/"
    ++ js "chomga" ++ js "/" ++ js "bolshaya" ++ js "/" /\
  js "Poganki" <> js "reference" /\ js "Poganki" <> js "en" /\
  anchorToken capitalAnchor = None.
Proof. vm_compute. repeat split; discriminate. Qed.

(** C3 (amended): an anchor whose address ends with a slash, a segment of
    lower-case Latin letters that does not begin with [reference] or with
    [en], a slash, a word segment, a slash, a segment of lower-case Latin
    letters, digits and hyphens, and a final slash is kept by link
    discovery as a candidate whose token is the address itself. *)
Theorem leaf_address_is_kept elem prefix s1 s2 s3 :
  href elem
  = prefix ++ js "/" ++ s1 ++ js "/" ++ s2 ++ js "/" ++ s3 ++ js "/" ->
  s1 <> [] -> allIn [range "a" "z"] s1 = true ->
  startsWith (js "reference") s1 = false ->
  startsWith (js "en") s1 = false ->
  s2 <> [] -> allIn wordRanges s2 = true ->
  s3 <> [] -> allIn [range "a" "z"; single "-"; range "0" "9"] s3 = true ->
  anchorToken elem = Some (href elem) /\
  forall d, elem ∈ anchors d -> href elem ∈ getItems d.
Proof.
  intros Hhref Hne1 Hs1 Href Hen Hne2 Hs2 Hne3 Hs3.
  assert (Hmatch : is_Some (jsMatch (href elem) leafPattern)).
  { rewrite Hhref. apply jsMatch_complete with (y := []).
    change (js "/") with [47]. cbn [app].
    unfold leafPattern. cbn [seq foldr lang].
    exists (s1 ++ 47 :: s2 ++ 47 :: s3 ++ [47]).
    split; [apply lang_class, (inRanges_single 47)|].
    exists (s1 ++ 47 :: s2 ++ 47 :: s3 ++ [47]). split.
    { split; [done|]. intros z [Hz | Hz]; apply lang_units_inv in Hz.
      - assert (startsWith (js "reference") s1 = true); [|congruence].
        eapply (startsWith_segment _ _ 47).
        + refine (bool_decide_unpack _ _). vm_compute. exact I.
        + apply startsWith_spec. eauto.
      - assert (startsWith (js "en") s1 = true); [|congruence].
        eapply (startsWith_segment _ _ 47).
        + refine (bool_decide_unpack _ _). vm_compute. exact I.
        + apply startsWith_spec. eauto. }
    exists (47 :: s2 ++ 47 :: s3 ++ [47]).
    split; [by apply lang_plus_class|].
    exists (s2 ++ 47 :: s3 ++ [47]).
    split; [apply lang_class, (inRanges_single 47)|].
    exists (47 :: s3 ++ [47]).
    split; [by apply lang_plus_class|].
    exists (s3 ++ [47]).
    split; [apply lang_class, (inRanges_single 47)|].
    exists [47].
    split; [by apply lang_plus_class|].
    exists []. split; [apply lang_class, (inRanges_single 47)|].
    exists []. done. }
  assert (Htok : anchorToken elem = Some (href elem)).
  { unfold anchorToken. by destruct Hmatch as [? ->]. }
  split; [done|]. intros d Hin. by eapply elem_of_getItems.
Qed.

Lemma leaf_address_is_kept_witness :
  anchorToken leafAnchor = Some (href leafAnchor) /\
  href leafAnchor ∈ getItems (listing [orderAnchor; familyAnchor; leafAnchor]).
Proof.
  destruct (leaf_address_is_kept leafAnchor (js "https://birds.peipsi.org")
              (js "poganki") (js "chomga") (js "bolshaya")) as [Htok Hin];
    try (vm_compute; first [reflexivity | discriminate]).
  split; [exact Htok|]. apply Hin. simpl. set_solver.
Defined.

(** ** Field extraction *)

Section ReplaceFacts.

Lemma indexOfFrom_hit p s i :
  startsWith p s = true -> indexOfFrom p s i = Some i.
Proof. intros H. destruct s; cbn [indexOfFrom]; by rewrite H. Qed.

Lemma indexOfFrom_miss p x s i :
  startsWith p (x :: s) = false ->
  indexOfFrom p (x :: s) i = indexOfFrom p s (S i).
Proof. intros H. cbn [indexOfFrom]. by rewrite H. Qed.

Lemma indexOfFrom_first p a b : forall i,
  (forall a' b', a ++ p ++ b = a' ++ p ++ b' -> (length a <= length a')%nat) ->
  indexOfFrom p (a ++ p ++ b) i = Some (i + length a)%nat.
Proof.
  induction a as [|x a IH]; intros i Hmin.
  - rewrite indexOfFrom_hit by (apply startsWith_spec; eauto).
    simpl. f_equal. lia.
  - assert (Hs : startsWith p ((x :: a) ++ p ++ b) = false).
    { destruct (startsWith p ((x :: a) ++ p ++ b)) eqn:E; [|done].
      apply startsWith_spec in E as [z Hz].
      specialize (Hmin [] z Hz). simpl in Hmin. lia. }
    cbn [app] in *. rewrite indexOfFrom_miss by done.
    rewrite IH; [simpl; f_equal; lia|].
    intros a' b' Heq. specialize (Hmin (x :: a') b').
    cbn [app] in Hmin. rewrite Heq in Hmin. specialize (Hmin eq_refl).
    simpl in Hmin. lia.
Qed.

Lemma indexOfFrom_Some p s : forall i n,
  indexOfFrom p s i = Some n ->
  exists a b, s = a ++ p ++ b /\ n = (i + length a)%nat /\
    forall a' b', s = a' ++ p ++ b' -> (length a <= length a')%nat.
Proof.
  induction s as [|x s IH]; intros i n H.
  - simpl in H. destruct (startsWith p []) eqn:E.
    + injection H as <-. apply startsWith_spec in E as [z Hz].
      exists [], z. repeat split; [done | simpl; lia | simpl; lia].
    + by destruct p.
  - cbn [indexOfFrom] in H. destruct (startsWith p (x :: s)) eqn:E.
    + injection H as <-. apply startsWith_spec in E as [z Hz].
      exists [], z. repeat split; [done | simpl; lia | simpl; lia].
    + apply IH in H as (a & b & -> & -> & Hmin).
      exists (x :: a), b. repeat split; [simpl; lia|].
      intros [|y a'] b' Heq.
      * assert (startsWith p (x :: a ++ p ++ b) = true); [|congruence].
        apply startsWith_spec. eauto.
      * injection Heq as -> Heq. apply Hmin in Heq. simpl. lia.
Qed.

Lemma indexOfFrom_None p s : forall i,
  indexOfFrom p s i = None -> noOccurrence p s.
Proof.
  induction s as [|x s IH]; intros i H a b Heq.
  - assert (Hs : startsWith p [] = true).
    { apply startsWith_spec. destruct a; [eauto | done]. }
    simpl in H. rewrite Hs in H. by destruct p.
  - cbn [indexOfFrom] in H. destruct (startsWith p (x :: s)) eqn:E; [done|].
    destruct a as [|y a].
    + assert (startsWith p (x :: s) = true); [|congruence].
      apply startsWith_spec. eauto.
    + injection Heq as -> Heq. by eapply IH.
Qed.

Lemma replace_first p s a b :
  firstOccurrence p s a b -> replace p [] s = a ++ b.
Proof.
  intros [-> Hmin]. unfold replace, indexOf.
  rewrite indexOfFrom_first by done. simpl.
  rewrite take_app_length. rewrite drop_app_add', drop_app_length by done.
  done.
Qed.

Lemma replace_absent p s : noOccurrence p s -> replace p [] s = s.
Proof.
  intros Hno. unfold replace, indexOf.
  destruct (indexOfFrom p s 0) as [n|] eqn:E; [|done].
  apply indexOfFrom_Some in E as (a & b & -> & _). by destruct (Hno a b).
Qed.

Lemma indexOf_firstOccurrence p s n :
  indexOf p s = Some n ->
  firstOccurrence p s (take n s) (drop (n + length p) s).
Proof.
  intros H. apply indexOfFrom_Some in H as (a & b & -> & -> & Hmin).
  simpl. rewrite take_app_length.
  rewrite drop_app_add', drop_app_length by done. by split.
Qed.

End ReplaceFacts.

(** C4, as stated, at a paragraph that has the label after its first
    sentence: the label is not a prefix of the text, yet it is removed. *)
Lemma inner_label_is_removed :
  let st := startAt innerLabelPage in
  article_p1 (page st) = Some (js "Голос. Признаки. Тихий.") /\
  startsWith (js "Признаки. ") (js "Голос. Признаки. Тихий.") = false /\
  extractSigns st = Return (js "Голос. Тихий.") st /\
  js "Голос. Тихий." <> js "Голос. Признаки. Тихий." /\
  article_p2 (page st) = Some (js "Гнездо. Местообитание. Озёра.") /\
  startsWith (js "Местообитание. ") (js "Гнездо. Местообитание. Озёра.") = false /\
  extractHabitat st = Return (js "Гнездо. Озёра.") st.
Proof. vm_compute. repeat split; discriminate. Qed.

(** C4 (amended): the signs extraction removes the leftmost occurrence of
    the label "Признаки. " from the text of the first paragraph, wherever
    it stands, and returns the text before and after it unchanged; a text
    without the label is returned as it is; for "Признаки. Крупная птица с
    хохолком." the result is "Крупная птица с хохолком.".  The habitat
    extraction does the same with "Местообитание. " on the second
    paragraph. *)
Theorem label_first_occurrence_removed st text :
  (article_p1 (page st) = Some text ->
     (forall a b, firstOccurrence (js "Признаки. ") text a b ->
        extractSigns st = Return (a ++ b) st) /\
     (forall b, text = js "Признаки. " ++ b ->
        extractSigns st = Return b st) /\
     (noOccurrence (js "Признаки. ") text ->
        extractSigns st = Return text st) /\
     (text = js "Признаки. Крупная птица с хохолком." ->
        extractSigns st = Return (js "Крупная птица с хохолком.") st)) /\
  (article_p2 (page st) = Some text ->
     (forall a b, firstOccurrence (js "Местообитание. ") text a b ->
        extractHabitat st = Return (a ++ b) st) /\
     (forall b, text = js "Местообитание. " ++ b ->
        extractHabitat st = Return b st) /\
     (noOccurrence (js "Местообитание. ") text ->
        extractHabitat st = Return text st)).
Proof.
  assert (Hprefix : forall p b, firstOccurrence p (p ++ b) [] b).
  { intros p b. split; [done|]. intros; simpl; lia. }
  split; intros Hp.
  - assert (Hrun : extractSigns st
                   = Return (replace (js "Признаки. ") [] text) st).
    { unfold extractSigns, evalTextContent, mbind, M_bind, bind.
      cbn [querySelector]. by rewrite Hp. }
    rewrite Hrun. split; [|split; [|split]].
    + intros a b Hfirst. by rewrite (replace_first _ _ _ _ Hfirst).
    + intros b ->. by rewrite (replace_first _ _ [] b (Hprefix _ _)).
    + intros Hno. by rewrite replace_absent.
    + intros ->. vm_compute. reflexivity.
  - assert (Hrun : extractHabitat st
                   = Return (replace (js "Местообитание. ") [] text) st).
    { unfold extractHabitat, evalTextContent, mbind, M_bind, bind.
      cbn [querySelector]. by rewrite Hp. }
    rewrite Hrun. split; [|split].
    + intros a b Hfirst. by rewrite (replace_first _ _ _ _ Hfirst).
    + intros b ->. by rewrite (replace_first _ _ [] b (Hprefix _ _)).
    + intros Hno. by rewrite replace_absent.
Qed.

Lemma label_first_occurrence_removed_witness :
  let st := startAt innerLabelPage in
  let text := js "Голос. Признаки. Тихий." in
  firstOccurrence (js "Признаки. ") text (js "Голос. ") (js "Тихий.") /\
  extractSigns st = Return (js "Голос. " ++ js "Тихий.") st.
Proof.
  intros st text.
  assert (Hfirst : firstOccurrence (js "Признаки. ") text
                     (js "Голос. ") (js "Тихий.")).
  { apply (indexOf_firstOccurrence (js "Признаки. ") text 7).
    vm_compute. reflexivity. }
  split; [exact Hfirst|].
  exact (proj1 (proj1 (label_first_occurrence_removed st text) eq_refl)
           _ _ Hfirst).
Defined.

(** C7: for the heading "Чомга Podiceps cristatus" the Russian name is
    "Чомга", the first match of the Cyrillic pattern with its trailing
    blank trimmed, and the Latin name is "Podiceps cristatus", the first
    match of the Latin pattern. *)
Theorem chomga_heading_names st :
  article_h1 (page st) = Some (js "Чомга Podiceps cristatus") ->
  jsMatch (js "Чомга Podiceps cristatus") regExpRusName
  = Some (0%nat, js "Чомга ") /\
  extractRusName st = Return (js "Чомга") st /\
  jsMatch (js "Чомга Podiceps cristatus") regExpLatName
  = Some (6%nat, js "Podiceps cristatus") /\
  extractLatName st = Return (js "Podiceps cristatus") st.
Proof.
  intros Hh.
  assert (Hr : jsMatch (js "Чомга Podiceps cristatus") regExpRusName
               = Some (0%nat, js "Чомга ")) by (vm_compute; reflexivity).
  assert (Hl : jsMatch (js "Чомга Podiceps cristatus") regExpLatName
               = Some (6%nat, js "Podiceps cristatus"))
    by (vm_compute; reflexivity).
  assert (Htr : trim (js "Чомга ") = js "Чомга") by (vm_compute; reflexivity).
  assert (Htl : trim (js "Podiceps cristatus") = js "Podiceps cristatus")
    by (vm_compute; reflexivity).
  split; [done|]. split; [|split; [done|]].
  - unfold extractRusName, evalTextContent, mbind, M_bind, bind.
    cbn [querySelector]. rewrite Hh. unfold firstMatchTrimmed.
    by rewrite Hr, Htr.
  - unfold extractLatName, evalTextContent, mbind, M_bind, bind.
    cbn [querySelector]. rewrite Hh. unfold firstMatchTrimmed.
    by rewrite Hl, Htl.
Qed.

Lemma chomga_heading_names_witness :
  extractRusName (startAt chomgaPage) = Return (js "Чомга") (startAt chomgaPage) /\
  extractLatName (startAt chomgaPage)
  = Return (js "Podiceps cristatus") (startAt chomgaPage).
Proof.
  pose proof (chomga_heading_names (startAt chomgaPage) eq_refl)
    as (_ & Hr & _ & Hl).
  split; [exact Hr | exact Hl].
Defined.

(** C8: on a heading in which the Russian-name pattern has no match the
    Russian-name extraction raises an error, and it returns a value exactly
    when the pattern has a match: the first match, trimmed.  The same holds
    of the Latin-name extraction and its pattern. *)
Theorem name_extraction_fails_iff_no_match st title :
  article_h1 (page st) = Some title ->
  (jsMatch title regExpRusName = None ->
     extractRusName st = Throw TypeError st) /\
  (forall i m0, jsMatch title regExpRusName = Some (i, m0) ->
     extractRusName st = Return (trim m0) st) /\
  ((exists v st', extractRusName st = Return v st')
     <-> is_Some (jsMatch title regExpRusName)) /\
  (jsMatch title regExpLatName = None ->
     extractLatName st = Throw TypeError st) /\
  (forall i m0, jsMatch title regExpLatName = Some (i, m0) ->
     extractLatName st = Return (trim m0) st) /\
  ((exists v st', extractLatName st = Return v st')
     <-> is_Some (jsMatch title regExpLatName)).
Proof.
  intros Hh.
  assert (Hr : extractRusName st
               = lift (firstMatchTrimmed title regExpRusName) st).
  { unfold extractRusName, evalTextContent, mbind, M_bind, bind.
    cbn [querySelector]. by rewrite Hh. }
  assert (Hl : extractLatName st
               = lift (firstMatchTrimmed title regExpLatName) st).
  { unfold extractLatName, evalTextContent, mbind, M_bind, bind.
    cbn [querySelector]. by rewrite Hh. }
  rewrite Hr, Hl. unfold firstMatchTrimmed.
  repeat split.
  - by intros ->.
  - by intros i m0 ->.
  - destruct (jsMatch title regExpRusName) as [[? ?]|]; [eauto|].
    by intros (? & ? & ?).
  - destruct (jsMatch title regExpRusName) as [[? ?]|]; [|by intros [? ?]].
    intros _. eexists _, _. reflexivity.
  - by intros ->.
  - by intros i m0 ->.
  - destruct (jsMatch title regExpLatName) as [[? ?]|]; [eauto|].
    by intros (? & ? & ?).
  - destruct (jsMatch title regExpLatName) as [[? ?]|]; [|by intros [? ?]].
    intros _. eexists _, _. reflexivity.
Qed.

Lemma name_extraction_fails_iff_no_match_witness :
  jsMatch (js "2023 / 2024") regExpRusName = None /\
  extractRusName (startAt digitsPage) = Throw TypeError (startAt digitsPage) /\
  jsMatch (js "2023 / 2024") regExpLatName = None /\
  extractLatName (startAt digitsPage) = Throw TypeError (startAt digitsPage).
Proof.
  assert (Hr : jsMatch (js "2023 / 2024") regExpRusName = None)
    by (vm_compute; reflexivity).
  assert (Hl : jsMatch (js "2023 / 2024") regExpLatName = None)
    by (vm_compute; reflexivity).
  pose proof (name_extraction_fails_iff_no_match (startAt digitsPage)
                (js "2023 / 2024") eq_refl) as (H1 & _ & _ & H2 & _).
  split; [exact Hr|]. split; [exact (H1 Hr)|].
  split; [exact Hl | exact (H2 Hl)].
Defined.

(** * Further properties of the scraper *)

(** ** What the matcher returns *)

Section MatcherSoundness.

Lemma reps_suffix R min max x y :
  (forall a b, R a b -> exists m, a = m ++ b) ->
  reps R min max x y -> exists m, x = m ++ y.
Proof.
  intros HR H. induction H as [| ? ? ? ? ? _ Hxy _ _ [m2 ->]]; [by exists []|].
  apply HR in Hxy as [m1 ->]. exists (m1 ++ m2). by rewrite app_assoc.
Qed.

Lemma lang_suffix r : forall x y, lang r x y -> exists m, x = m ++ y.
Proof.
  induction r as [| neg rs | r1 IH1 r2 IH2 | r1 IH1 r2 IH2
                 | min max g r1 IH1 | r1 IH1 | r1 IH1 |]; simpl; intros x y H.
  - subst. by exists [].
  - destruct H as (ch & -> & _). by exists [ch].
  - destruct H as (z & H1 & H2).
    apply IH1 in H1 as [m1 ->]. apply IH2 in H2 as [m2 ->].
    exists (m1 ++ m2). by rewrite app_assoc.
  - destruct H as [H | H]; eauto.
  - eapply reps_suffix; eauto.
  - eauto.
  - destruct H as [-> _]. by exists [].
  - destruct H as [-> ->]. by exists [].
Qed.

Lemma RepeatMatcher_sound (m : matcherT) (R : jsstring -> jsstring -> Prop) :
  (forall x c z, m x c = Some z -> exists y, R x y /\ c y = Some z) ->
  forall fuel min max greedy x c z,
    RepeatMatcher m fuel min max greedy x c = Some z ->
    exists y, reps R min max x y /\ c y = Some z.
Proof.
  intros Hm fuel.
  induction fuel as [|fuel IH]; intros min max greedy x c z H; [done|].
  cbn [RepeatMatcher] in H. case_bool_decide as Hmax.
  { exists x. split; [constructor; auto | done]. }
  assert (Hiter : forall z',
    m x (fun y => if (min =? 0)%nat && (length y =? length x)%nat then None
                  else RepeatMatcher m fuel (pred min) (pred <$> max) greedy y c)
    = Some z' -> exists y, reps R min max x y /\ c y = Some z').
  { intros z' Hz'. apply Hm in Hz' as (y & Hxy & Hd).
    destruct ((min =? 0)%nat && (length y =? length x)%nat) eqn:E; [done|].
    apply IH in Hd as (y' & Hr & Hc). exists y'. split; [|done].
    eapply reps_step; eauto. intros -> Heq.
    apply Nat.eqb_eq in Heq. rewrite Heq in E. discriminate E. }
  assert (Hstop : forall z', min = O -> c x = Some z' ->
                  exists y, reps R min max x y /\ c y = Some z').
  { intros z' -> Hz'. exists x. split; [constructor; auto | done]. }
  destruct (min =? 0)%nat eqn:Emin; simpl in H.
  - apply Nat.eqb_eq in Emin. destruct greedy.
    + destruct (m x _) as [z'|] eqn:E1; [injection H as <-; eauto | eauto].
    + destruct (c x) as [z'|] eqn:E1; [injection H as <-; eauto | eauto].
  - eauto.
Qed.

Lemma matcher_sound r :
  forall x c z, matcher r x c = Some z -> exists y, lang r x y /\ c y = Some z.
Proof.
  induction r as [| neg rs | r1 IH1 r2 IH2 | r1 IH1 r2 IH2
                 | min max g r1 IH1 | r1 IH1 | r1 IH1 |];
    intros x c z H; cbn [matcher lang] in *.
  - eauto.
  - destruct x as [|ch y]; [done|].
    destruct (xorb neg (inRanges ch rs)) eqn:E; [eauto 6 | done].
  - apply IH1 in H as (y & H1 & H2). apply IH2 in H2 as (y' & ? & ?). eauto 6.
  - destruct (matcher r1 x c) as [z'|] eqn:E.
    + injection H as <-. apply IH1 in E as (y & ? & ?). eauto.
    + apply IH2 in H as (y & ? & ?). eauto.
  - eapply RepeatMatcher_sound; eauto.
  - eauto.
  - destruct (matcher r1 x Some) as [z'|] eqn:E; [done|].
    exists x. split; [|done]. split; [done|]. intros y Hy.
    assert (Hs : is_Some (matcher r1 x Some)) by (apply matcher_spec; eauto).
    rewrite E in Hs. by destruct Hs.
  - destruct x; [eauto | done].
Qed.

Lemma take_matched (x m y : jsstring) :
  x = m ++ y -> take (length x - length y) x = m.
Proof.
  intros ->. rewrite length_app.
  replace (length m + length y - length y)%nat with (length m) by lia.
  apply take_app_length.
Qed.

(** The result of [s.match(r)]: the matched text stands at the returned
    index, the pattern matches it there, and there is no match at any
    smaller index. *)
Lemma execFrom_sound r x : forall i j m0,
  execFrom r i x = Some (j, m0) ->
  exists pre y,
    x = pre ++ m0 ++ y /\ lang r (m0 ++ y) y /\ j = (i + length pre)%nat /\
    forall k y', (k < length pre)%nat -> ~ lang r (drop k x) y'.
Proof.
  induction x as [|a x IH]; intros i j m0 H.
  - cbn [execFrom] in H. destruct (matcher r [] Some) as [y|] eqn:E; [|done].
    injection H as <- <-. apply matcher_sound in E as (y' & Hl & [= ->]).
    apply lang_suffix in Hl as Hm. destruct Hm as [m Hm].
    destruct m, y; try done. exists [], []. simpl.
    repeat split; [done | lia | intros; lia].
  - cbn [execFrom] in H. destruct (matcher r (a :: x) Some) as [y|] eqn:E.
    + injection H as Hj Hm0. subst j.
      apply matcher_sound in E as (y' & Hl & [= ->]).
      apply lang_suffix in Hl as Hm. destruct Hm as [m Hm].
      assert (m0 = m) as ->.
      { rewrite <- Hm0. exact (take_matched (a :: x) m y Hm). }
      exists [], y. simpl. rewrite <- Hm.
      repeat split; [done | lia | intros; lia].
    + apply IH in H as (pre & y & -> & Hl & -> & Hleft).
      exists (a :: pre), y. simpl. repeat split; [done | lia |].
      intros [|k] y' Hk Hy'.
      * simpl in Hy'.
        assert (Hs : is_Some (matcher r (a :: pre ++ m0 ++ y) Some))
          by (apply matcher_spec; eauto).
        rewrite E in Hs. by destruct Hs.
      * simpl in Hy'. apply (Hleft k y'); [lia | done].
Qed.

Lemma jsMatch_sound s r j m0 :
  jsMatch s r = Some (j, m0) ->
  exists pre y,
    s = pre ++ m0 ++ y /\ lang r (m0 ++ y) y /\ j = length pre /\
    forall k y', (k < length pre)%nat -> ~ lang r (drop k s) y'.
Proof. intros H. apply execFrom_sound in H as (pre & y & ? & ? & ? & ?). eauto 8. Qed.

Lemma jsMatch_None s r :
  jsMatch s r = None -> forall pre suf y, s = pre ++ suf -> ~ lang r suf y.
Proof.
  intros H pre suf y -> Hl.
  assert (Hs : is_Some (jsMatch (pre ++ suf) r))
    by (eapply jsMatch_complete; eauto).
  rewrite H in Hs. by destruct Hs.
Qed.

End MatcherSoundness.

(** ** The addresses that link discovery accepts *)

Section ShapeFacts.

Lemma lang_unit_inv u x y : lang (Class false [(u, u)]) x y -> x = u :: y.
Proof.
  intros (ch & -> & Hch). unfold inRanges in Hch. simpl in Hch.
  rewrite orb_false_r, andb_true_iff, !N.leb_le in Hch. f_equal. lia.
Qed.

Lemma lang_units p z :
  lang (seq (map (fun u => Class false [(u, u)]) p)) (p ++ z) z.
Proof.
  induction p as [|u p IH]; [done|].
  exists (p ++ z). split; [|done].
  apply (lang_class [(u, u)] u (p ++ z)), inRanges_single.
Qed.

Lemma reps_class_inv rs min x y :
  reps (lang (Class false rs)) min None x y ->
  exists w, x = w ++ y /\ allIn rs w = true /\ (min <= length w)%nat.
Proof.
  remember (lang (Class false rs)) as R eqn:HR.
  remember (@None nat) as max eqn:Hmax.
  intros H. induction H as [min max x [-> | ->] | min max x y z _ Hxy _ _ IH].
  - exists []. simpl. repeat split; lia.
  - done.
  - subst. destruct IH as (w & -> & Hw & Hlen); [done..|].
    destruct Hxy as (ch & -> & Hch). simpl in Hch.
    exists (ch :: w). simpl. rewrite Hch, Hw. repeat split; lia.
Qed.

Lemma lang_plus_class_inv rs g x y :
  lang (Quant 1 None g (Class false rs)) x y ->
  exists w, x = w ++ y /\ segment rs w.
Proof.
  intros H. apply reps_class_inv in H as (w & -> & Hw & Hlen).
  exists w. split; [done|]. split; [|done]. by destruct w; [simpl in Hlen; lia|].
Qed.

Lemma lang_opt_inv r x y :
  lang (Quant 0 (Some 1%nat) true r) x y -> y = x \/ lang r x y.
Proof.
  intros H. inversion H as [| ? ? ? z ? _ Hxz _ Hrest]; subst; [auto|].
  simpl in Hrest. inversion Hrest as [| ? ? ? ? ? Hmax]; subst; [auto | done].
Qed.

Lemma startsWith_app p s rest :
  startsWith p s = true -> startsWith p (s ++ rest) = true.
Proof.
  rewrite !startsWith_spec. intros [z ->]. exists (z ++ rest).
  by rewrite app_assoc.
Qed.

Lemma leafPattern_lang suf :
  (exists y, lang leafPattern suf y) <->
  exists s1 s2 s3,
    suf = js "/" ++ s1 ++ js "/" ++ s2 ++ js "/" ++ s3 ++ js "/" /\
    segment lowerRanges s1 /\
    startsWith (js "reference") s1 = false /\
    startsWith (js "en") s1 = false /\
    segment wordRanges s2 /\
    segment lowerDigitRanges s3.
Proof.
  change (js "/") with [47]. split.
  - intros (y & H). unfold leafPattern in H. cbn [seq foldr lang] in H.
    destruct H as (z1 & H1 & z2 & [-> Hlook] & z3 & H3 & z4 & H4 & z5 & H5
                   & z6 & H6 & z7 & H7 & z8 & H8 & z9 & [-> ->] & ->).
    apply lang_unit_inv in H1, H4, H6, H8. subst.
    change (codeUnit "/") with 47 in *.
    apply lang_plus_class_inv in H3 as (s1 & -> & Hs1).
    apply lang_plus_class_inv in H5 as (s2 & -> & Hs2).
    apply lang_plus_class_inv in H7 as (s3 & -> & Hs3).
    exists s1, s2, s3. split; [done|]. split; [done|].
    split; [|split; [|done]].
    + destruct (startsWith (js "reference") s1) eqn:E; [|done].
      apply (startsWith_app _ _ (47 :: s2 ++ 47 :: s3 ++ [47])) in E.
      apply startsWith_spec in E as [z Hz]. destruct (Hlook z).
      left. rewrite Hz. apply lang_units.
    + destruct (startsWith (js "en") s1) eqn:E; [|done].
      apply (startsWith_app _ _ (47 :: s2 ++ 47 :: s3 ++ [47])) in E.
      apply startsWith_spec in E as [z Hz]. destruct (Hlook z).
      right. rewrite Hz. apply lang_units.
  - intros (s1 & s2 & s3 & -> & [Hne1 Hs1] & Href & Hen & [Hne2 Hs2] & [Hne3 Hs3]).
    exists []. cbn [app]. unfold leafPattern. cbn [seq foldr lang].
    exists (s1 ++ 47 :: s2 ++ 47 :: s3 ++ [47]).
    split; [apply lang_class, (inRanges_single 47)|].
    exists (s1 ++ 47 :: s2 ++ 47 :: s3 ++ [47]). split.
    { split; [done|]. intros z [Hz | Hz]; apply lang_units_inv in Hz.
      - assert (startsWith (js "reference") s1 = true); [|congruence].
        eapply (startsWith_segment _ _ 47).
        + refine (bool_decide_unpack _ _). vm_compute. exact I.
        + apply startsWith_spec. eauto.
      - assert (startsWith (js "en") s1 = true); [|congruence].
        eapply (startsWith_segment _ _ 47).
        + refine (bool_decide_unpack _ _). vm_compute. exact I.
        + apply startsWith_spec. eauto. }
    exists (47 :: s2 ++ 47 :: s3 ++ [47]).
    split; [by apply lang_plus_class|].
    exists (s2 ++ 47 :: s3 ++ [47]).
    split; [apply lang_class, (inRanges_single 47)|].
    exists (47 :: s3 ++ [47]).
    split; [by apply lang_plus_class|].
    exists (s3 ++ [47]).
    split; [apply lang_class, (inRanges_single 47)|].
    exists [47].
    split; [by apply lang_plus_class|].
    exists []. split; [apply lang_class, (inRanges_single 47)|].
    exists []. done.
Qed.

Lemma orderHeadingPattern_lang suf :
  (exists y, lang orderHeadingPattern suf y) <->
  exists w, suf = js "reference" ++ js "/" ++ w ++ js "/" /\ segment wordRanges w.
Proof.
  change (js "/") with [47]. split.
  - intros (y & H). unfold orderHeadingPattern in H. cbn [seq foldr lang] in H.
    destruct H as (z1 & H1 & z2 & H2 & z3 & H3 & z4 & H4 & z5 & [-> ->] & ->).
    apply lang_units_inv in H1. apply lang_unit_inv in H2, H4. subst.
    change (codeUnit "/") with 47 in *.
    apply lang_plus_class_inv in H3 as (w & -> & Hw). eauto.
  - intros (w & -> & [Hne Hw]). exists [].
    unfold orderHeadingPattern. cbn [seq foldr lang app].
    exists (47 :: w ++ [47]). split; [apply lang_units|].
    exists (w ++ [47]). split; [apply lang_class, (inRanges_single 47)|].
    exists [47]. split; [by apply lang_plus_class|].
    exists []. split; [apply lang_class, (inRanges_single 47)|].
    exists []. done.
Qed.

Lemma familyHeadingPattern_lang suf :
  (exists y, lang familyHeadingPattern suf y) <->
  exists w f,
    suf = js "reference" ++ js "/" ++ w ++ js "/" ++ f ++ js "/" /\
    segment wordRanges w /\ segment lowerHyphenRanges f.
Proof.
  change (js "/") with [47]. split.
  - intros (y & H). unfold familyHeadingPattern in H. cbn [seq foldr lang] in H.
    destruct H as (z1 & H1 & z2 & H2 & z3 & H3 & z4 & H4 & z5 & H5
                   & z6 & H6 & z7 & [-> ->] & ->).
    apply lang_units_inv in H1. apply lang_unit_inv in H2, H4, H6. subst.
    change (codeUnit "/") with 47 in *.
    apply lang_plus_class_inv in H3 as (w & -> & Hw).
    apply lang_plus_class_inv in H5 as (f & -> & Hf). eauto.
  - intros (w & f & -> & [Hne Hw] & [Hnf Hf]). exists [].
    unfold familyHeadingPattern. cbn [seq foldr lang app].
    exists (47 :: w ++ 47 :: f ++ [47]). split; [apply lang_units|].
    exists (w ++ 47 :: f ++ [47]).
    split; [apply lang_class, (inRanges_single 47)|].
    exists (47 :: f ++ [47]). split; [by apply lang_plus_class|].
    exists (f ++ [47]). split; [apply lang_class, (inRanges_single 47)|].
    exists [47]. split; [by apply lang_plus_class|].
    exists []. split; [apply lang_class, (inRanges_single 47)|].
    exists []. done.
Qed.

Lemma jsMatch_iff s r :
  is_Some (jsMatch s r) <-> exists pre suf y, s = pre ++ suf /\ lang r suf y.
Proof.
  split.
  - intros [[j m0] H]. apply jsMatch_sound in H as (pre & y & -> & Hl & _).
    eauto.
  - intros (pre & suf & y & -> & Hl). by eapply jsMatch_complete.
Qed.

Lemma leafPattern_matches url :
  is_Some (jsMatch url leafPattern) <-> leafShape url.
Proof.
  rewrite jsMatch_iff. unfold leafShape. split.
  - intros (pre & suf & y & -> & Hl).
    assert (Hs : exists y, lang leafPattern suf y) by eauto.
    apply leafPattern_lang in Hs as (s1 & s2 & s3 & -> & ?). eauto 10.
  - intros (pre & s1 & s2 & s3 & -> & Hrest).
    assert (Hs : exists y, lang leafPattern
                   (js "/" ++ s1 ++ js "/" ++ s2 ++ js "/" ++ s3 ++ js "/") y)
      by (apply leafPattern_lang; eauto 10).
    destruct Hs as [y Hy]. eauto.
Qed.

Lemma orderHeadingPattern_matches url :
  is_Some (jsMatch url orderHeadingPattern) <-> orderHeadingShape url.
Proof.
  rewrite jsMatch_iff. unfold orderHeadingShape. split.
  - intros (pre & suf & y & -> & Hl).
    assert (Hs : exists y, lang orderHeadingPattern suf y) by eauto.
    apply orderHeadingPattern_lang in Hs as (w & -> & ?). eauto.
  - intros (pre & w & -> & Hrest).
    assert (Hs : exists y, lang orderHeadingPattern
                   (js "reference" ++ js "/" ++ w ++ js "/") y)
      by (apply orderHeadingPattern_lang; eauto).
    destruct Hs as [y Hy]. eauto.
Qed.

Lemma familyHeadingPattern_matches url :
  is_Some (jsMatch url familyHeadingPattern) <-> familyHeadingShape url.
Proof.
  rewrite jsMatch_iff. unfold familyHeadingShape. split.
  - intros (pre & suf & y & -> & Hl).
    assert (Hs : exists y, lang familyHeadingPattern suf y) by eauto.
    apply familyHeadingPattern_lang in Hs as (w & f & -> & ?). eauto 6.
  - intros (pre & w & f & -> & Hrest).
    assert (Hs : exists y, lang familyHeadingPattern
                   (js "reference" ++ js "/" ++ w ++ js "/" ++ f ++ js "/") y)
      by (apply familyHeadingPattern_lang; eauto).
    destruct Hs as [y Hy]. eauto.
Qed.

End ShapeFacts.

Section SegmentFacts.

Lemma allIn_not_elem rs u w :
  inRanges u rs = false -> allIn rs w = true -> u ∉ w.
Proof.
  intros Hu. induction w as [|c w IH]; simpl; intros Hw Hin.
  - by apply elem_of_nil in Hin.
  - apply andb_true_iff in Hw as [Hc Hw].
    apply elem_of_cons in Hin as [-> | Hin]; [congruence | by apply IH].
Qed.

(** The text after the last separator of a string is determined by the
    string. *)
Lemma last_segment_unique (sep : N) a s b t :
  sep ∉ s -> sep ∉ t -> a ++ sep :: s = b ++ sep :: t -> a = b /\ s = t.
Proof.
  intros Hs Ht. revert b. induction a as [|c a IH]; intros [|c' b] Heq;
    simpl in Heq.
  - by injection Heq as ->.
  - injection Heq as <- ->. destruct Hs.
    apply elem_of_app. right. by left.
  - injection Heq as <- <-. destruct Ht.
    apply elem_of_app. right. by left.
  - injection Heq as <- Heq. apply IH in Heq as [-> ->]. done.
Qed.

Lemma three_segments_unique (sep : N) a s1 s2 s3 b t1 t2 t3 :
  sep ∉ s1 -> sep ∉ s2 -> sep ∉ s3 -> sep ∉ t1 -> sep ∉ t2 -> sep ∉ t3 ->
  a ++ [sep] ++ s1 ++ [sep] ++ s2 ++ [sep] ++ s3 ++ [sep]
  = b ++ [sep] ++ t1 ++ [sep] ++ t2 ++ [sep] ++ t3 ++ [sep] ->
  s1 = t1 /\ s2 = t2 /\ s3 = t3.
Proof.
  intros H1 H2 H3 H4 H5 H6 Heq.
  assert (Hre : forall x u1 u2 u3,
    x ++ [sep] ++ u1 ++ [sep] ++ u2 ++ [sep] ++ u3 ++ [sep]
    = ((x ++ sep :: u1) ++ sep :: u2) ++ sep :: (u3 ++ [sep])).
  { intros. by rewrite <- !app_assoc. }
  assert (Hre' : forall (x u : jsstring), x ++ sep :: (u ++ [sep])
                                          = (x ++ sep :: u) ++ [sep]).
  { intros. by rewrite <- app_assoc. }
  rewrite !Hre, !Hre' in Heq. apply app_inj_tail in Heq as [Heq _].
  apply last_segment_unique in Heq as [Heq ->]; [|done..].
  apply last_segment_unique in Heq as [Heq ->]; [|done..].
  apply last_segment_unique in Heq as [_ ->]; done.
Qed.

Lemma segment_no_slash rs s :
  inRanges 47 rs = false -> segment rs s -> 47 ∉ s.
Proof. intros Hrs [_ Hs]. by eapply allIn_not_elem. Qed.

Lemma leafShape_segments url pre h1 h2 h3 :
  url = pre ++ js "/" ++ h1 ++ js "/" ++ h2 ++ js "/" ++ h3 ++ js "/" ->
  47 ∉ h1 -> 47 ∉ h2 -> 47 ∉ h3 ->
  leafShape url ->
  segment lowerRanges h1 /\ startsWith (js "reference") h1 = false /\
  startsWith (js "en") h1 = false /\ segment wordRanges h2 /\
  segment lowerDigitRanges h3.
Proof.
  intros -> N1 N2 N3 (pre' & s1 & s2 & s3 & Heq & Hs1 & Href & Hen & Hs2 & Hs3).
  change (js "/") with [47] in Heq. symmetry in Heq.
  pose proof (segment_no_slash lowerRanges s1 eq_refl Hs1) as M1.
  pose proof (segment_no_slash wordRanges s2 eq_refl Hs2) as M2.
  pose proof (segment_no_slash lowerDigitRanges s3 eq_refl Hs3) as M3.
  apply three_segments_unique in Heq as (-> & -> & ->); done.
Qed.

Lemma shape_ends_with_slash (x url : jsstring) :
  url = x ++ js "/" -> last url = Some 47.
Proof. intros ->. apply last_snoc. Qed.

End SegmentFacts.

Lemma heading_token elem :
  ~ leafShape (href elem) ->
  orderHeadingShape (href elem) \/ familyHeadingShape (href elem) ->
  anchorToken elem = Some (textContent elem).
Proof.
  intros Hno Hheading. unfold anchorToken.
  destruct (jsMatch (href elem) leafPattern) as [?|] eqn:El.
  { destruct Hno. apply leafPattern_matches. rewrite El. eauto. }
  destruct (jsMatch (href elem) orderHeadingPattern) as [?|] eqn:Eo; [done|].
  destruct Hheading as [Ho | Hf].
  - apply orderHeadingPattern_matches in Ho. rewrite Eo in Ho. by destruct Ho.
  - apply familyHeadingPattern_matches in Hf as [? ->]. done.
Qed.

Lemma leaf_token elem :
  leafShape (href elem) -> anchorToken elem = Some (href elem).
Proof.
  intros Hl. apply leafPattern_matches in Hl as [? Hl].
  unfold anchorToken. by rewrite Hl.
Qed.

(** X1: link discovery decides by the shape of the address alone.  The
    token of an anchor is its address exactly when the address has the leaf
    shape; it is the text of the anchor exactly when the address has not
    the leaf shape but one of the two heading shapes; the anchor is dropped
    exactly when its address has none of the three shapes. *)
Theorem link_discovery_by_shape elem :
  (forall tok,
     anchorToken elem = Some tok <->
     (leafShape (href elem) /\ tok = href elem) \/
     (~ leafShape (href elem) /\
      (orderHeadingShape (href elem) \/ familyHeadingShape (href elem)) /\
      tok = textContent elem)) /\
  (anchorToken elem = None <->
   ~ leafShape (href elem) /\ ~ orderHeadingShape (href elem) /\
   ~ familyHeadingShape (href elem)).
Proof.
  pose proof (leafPattern_matches (href elem)) as Hl.
  pose proof (orderHeadingPattern_matches (href elem)) as Ho.
  pose proof (familyHeadingPattern_matches (href elem)) as Hf.
  unfold anchorToken.
  destruct (jsMatch (href elem) leafPattern) as [?|].
  { assert (leafShape (href elem)) by (apply Hl; eauto).
    split; [|split; [done | tauto]].
    intros tok. split; [intros [= <-]; auto | intros [[_ ->] | [? _]]; done]. }
  assert (~ leafShape (href elem)) by (rewrite <- Hl; by intros [? ?]).
  destruct (jsMatch (href elem) orderHeadingPattern) as [?|].
  { assert (orderHeadingShape (href elem)) by (apply Ho; eauto).
    split; [|split; [done | tauto]].
    intros tok. split; [intros [= <-]; auto | intros [[? _] | (_ & _ & ->)]; done]. }
  assert (~ orderHeadingShape (href elem)) by (rewrite <- Ho; by intros [? ?]).
  destruct (jsMatch (href elem) familyHeadingPattern) as [?|].
  { assert (familyHeadingShape (href elem)) by (apply Hf; eauto).
    split; [|split; [done | tauto]].
    intros tok. split; [intros [= <-]; auto | intros [[? _] | (_ & _ & ->)]; done]. }
  assert (~ familyHeadingShape (href elem)) by (rewrite <- Hf; by intros [? ?]).
  split; [|done]. intros tok. split; [done | tauto].
Qed.

Lemma link_discovery_by_shape_witness :
  leafShape (href leafAnchor) /\
  anchorToken leafAnchor = Some (href leafAnchor).
Proof.
  assert (Hshape : leafShape (href leafAnchor)).
  { exists (js "https://birds.peipsi.org"), (js "poganki"), (js "chomga"),
      (js "bolshaya").
    repeat split; try (vm_compute; first [reflexivity | discriminate]). }
  split; [exact Hshape|].
  apply (proj1 (link_discovery_by_shape leafAnchor)). left. by split.
Defined.

(** X2: an anchor whose address does not end with a slash (an address
    with a query string or a fragment, or the empty address of an anchor
    without [href]) yields no candidate. *)
Theorem address_without_final_slash_dropped elem :
  last (href elem) <> Some 47 ->
  anchorToken elem = None /\
  forall before after,
    getItems (listing (before ++ elem :: after))
    = getItems (listing before) ++ getItems (listing after).
Proof.
  intros Hlast.
  assert (Hnone : anchorToken elem = None).
  { pose proof (leafPattern_matches (href elem)) as Hl.
    pose proof (orderHeadingPattern_matches (href elem)) as Ho.
    pose proof (familyHeadingPattern_matches (href elem)) as Hf.
    unfold anchorToken.
    destruct (jsMatch (href elem) leafPattern) as [?|].
    { destruct Hlast.
      destruct (proj1 Hl) as (pre & s1 & s2 & s3 & Heq & _); [eauto|].
      rewrite !app_assoc in Heq. by eapply shape_ends_with_slash. }
    destruct (jsMatch (href elem) orderHeadingPattern) as [?|].
    { destruct Hlast. destruct (proj1 Ho) as (pre & w & Heq & _); [eauto|].
      rewrite !app_assoc in Heq. by eapply shape_ends_with_slash. }
    destruct (jsMatch (href elem) familyHeadingPattern) as [?|]; [|done].
    destruct Hlast. destruct (proj1 Hf) as (pre & w & f & Heq & _); [eauto|].
    rewrite !app_assoc in Heq. by eapply shape_ends_with_slash. }
  split; [done|]. intros before after. unfold getItems, listing. simpl.
  rewrite omap_app. simpl. by rewrite Hnone.
Qed.

Lemma address_without_final_slash_dropped_witness :
  last (href queryAnchor) <> Some 47 /\
  anchorToken queryAnchor = None /\
  getItems (listing [orderAnchor; queryAnchor; leafAnchor])
  = getItems (listing [orderAnchor]) ++ getItems (listing [leafAnchor]).
Proof.
  assert (H : last (href queryAnchor) <> Some 47)
    by (vm_compute; discriminate).
  split; [exact H|].
  destruct (address_without_final_slash_dropped queryAnchor H) as [Hn Hi].
  split; [exact Hn | exact (Hi [orderAnchor] [leafAnchor])].
Defined.

(** X3: an anchor whose address ends with the segments [reference], a
    word segment and a segment of lower-case letters and hyphens yields its
    text as token, never its address: the leaf pattern cannot accept it,
    because its first segment would be [reference]. *)
Theorem family_heading_yields_text elem pre w f :
  href elem
  = pre ++ js "/" ++ js "reference" ++ js "/" ++ w ++ js "/" ++ f ++ js "/" ->
  segment wordRanges w ->
  segment lowerHyphenRanges f ->
  ~ leafShape (href elem) /\
  familyHeadingShape (href elem) /\
  anchorToken elem = Some (textContent elem).
Proof.
  intros Hhref Hw Hf.
  assert (Hno : ~ leafShape (href elem)).
  { intros Hleaf.
    eapply leafShape_segments in Hleaf as (_ & Href & _); [| exact Hhref |..].
    - vm_compute in Href. discriminate Href.
    - refine (bool_decide_unpack _ _). vm_compute. exact I.
    - exact (segment_no_slash wordRanges w eq_refl Hw).
    - exact (segment_no_slash lowerHyphenRanges f eq_refl Hf). }
  assert (Hfam : familyHeadingShape (href elem)).
  { exists (pre ++ js "/"), w, f. by rewrite Hhref, <- !app_assoc. }
  split; [done|]. split; [done|].
  apply heading_token; auto.
Qed.

Lemma family_heading_yields_text_witness :
  href familyAnchor
  = js "https://birds.peipsi.org" ++ js "/" ++ js "reference" ++ js "/"
    ++ js "poganki" ++ js "/" ++ js "chomga" ++ js "/" /\
  anchorToken familyAnchor = Some (textContent familyAnchor).
Proof.
  assert (Hhref : href familyAnchor
    = js "https://birds.peipsi.org" ++ js "/" ++ js "reference" ++ js "/"
      ++ js "poganki" ++ js "/" ++ js "chomga" ++ js "/")
    by (vm_compute; reflexivity).
  split; [exact Hhref|].
  refine (proj2 (proj2 (family_heading_yields_text familyAnchor
            (js "https://birds.peipsi.org") (js "poganki") (js "chomga")
            Hhref _ _))).
  - split; [vm_compute; discriminate | vm_compute; reflexivity].
  - split; [vm_compute; discriminate | vm_compute; reflexivity].
Defined.

(** X4: an anchor whose address ends with a segment that cannot open a
    leaf address (a host name with a dot, for one), [reference] and a word
    segment yields its text as token. *)
Theorem order_heading_yields_text elem pre h w :
  href elem
  = pre ++ js "/" ++ h ++ js "/" ++ js "reference" ++ js "/" ++ w ++ js "/" ->
  47 ∉ h ->
  segment wordRanges w ->
  ~ (segment lowerRanges h /\ startsWith (js "reference") h = false
     /\ startsWith (js "en") h = false) ->
  ~ leafShape (href elem) /\
  orderHeadingShape (href elem) /\
  anchorToken elem = Some (textContent elem).
Proof.
  intros Hhref Hh Hw Hfirst.
  assert (Hno : ~ leafShape (href elem)).
  { intros Hleaf.
    eapply leafShape_segments in Hleaf as (? & ? & ? & _); [| exact Hhref |..].
    - by destruct Hfirst.
    - done.
    - refine (bool_decide_unpack _ _). vm_compute. exact I.
    - exact (segment_no_slash wordRanges w eq_refl Hw). }
  assert (Hord : orderHeadingShape (href elem)).
  { exists (pre ++ js "/" ++ h ++ js "/"), w. by rewrite Hhref, <- !app_assoc. }
  split; [done|]. split; [done|]. apply heading_token; auto.
Qed.

Lemma order_heading_yields_text_witness :
  href orderAnchor
  = js "https:/" ++ js "/" ++ js "birds.peipsi.org" ++ js "/"
    ++ js "reference" ++ js "/" ++ js "poganki" ++ js "/" /\
  anchorToken orderAnchor = Some (textContent orderAnchor).
Proof.
  assert (Hhref : href orderAnchor
    = js "https:/" ++ js "/" ++ js "birds.peipsi.org" ++ js "/"
      ++ js "reference" ++ js "/" ++ js "poganki" ++ js "/")
    by (vm_compute; reflexivity).
  split; [exact Hhref|].
  refine (proj2 (proj2 (order_heading_yields_text orderAnchor
            (js "https:/") (js "birds.peipsi.org") (js "poganki")
            Hhref _ _ _))).
  - refine (bool_decide_unpack _ _). vm_compute. exact I.
  - split; [vm_compute; discriminate | vm_compute; reflexivity].
  - intros [[_ H] _]. vm_compute in H. discriminate H.
Defined.

Lemma allIn_weaken rs1 rs2 w :
  (forall u, inRanges u rs1 = true -> inRanges u rs2 = true) ->
  allIn rs1 w = true -> allIn rs2 w = true.
Proof.
  intros Hsub. induction w as [|c w IH]; simpl; [done|].
  rewrite !andb_true_iff. intros [? ?]. auto.
Qed.

Lemma lowerAlnum_word u :
  inRanges u lowerAlnumRanges = true -> inRanges u wordRanges = true.
Proof.
  change lowerAlnumRanges with [(97, 122); (48, 57)].
  change wordRanges with [(97, 122); (65, 90); (48, 57); (95, 95)].
  unfold inRanges. cbn [existsb fst snd].
  rewrite !orb_true_iff, !andb_true_iff, !N.leb_le. intuition lia.
Qed.

Lemma lowerAlnum_lowerDigit u :
  inRanges u lowerAlnumRanges = true -> inRanges u lowerDigitRanges = true.
Proof.
  change lowerAlnumRanges with [(97, 122); (48, 57)].
  change lowerDigitRanges with [(97, 122); (45, 45); (48, 57)].
  unfold inRanges. cbn [existsb fst snd].
  rewrite !orb_true_iff, !andb_true_iff, !N.leb_le. intuition lia.
Qed.

(** X5: the leaf pattern and the first heading pattern are not exclusive.
    An address that ends with a lower-case segment not beginning with
    [reference] or [en], then [reference], then a segment of lower-case
    letters and digits has both shapes, and the leaf check, which comes
    first, decides: the token is the address, not the text. *)
Theorem leaf_check_wins_collision elem pre s1 s3 :
  href elem
  = pre ++ js "/" ++ s1 ++ js "/" ++ js "reference" ++ js "/" ++ s3 ++ js "/" ->
  segment lowerRanges s1 ->
  startsWith (js "reference") s1 = false ->
  startsWith (js "en") s1 = false ->
  segment lowerAlnumRanges s3 ->
  leafShape (href elem) /\
  orderHeadingShape (href elem) /\
  anchorToken elem = Some (href elem).
Proof.
  intros Hhref Hs1 Href Hen [Hne3 Hs3].
  assert (Hleaf : leafShape (href elem)).
  { exists pre, s1, (js "reference"), s3. split; [done|].
    split; [done|]. split; [done|]. split; [done|].
    split; [split; [vm_compute; discriminate | vm_compute; reflexivity]|].
    split; [done|]. eapply allIn_weaken; [apply lowerAlnum_lowerDigit | done]. }
  split; [done|]. split; [|by apply leaf_token].
  exists (pre ++ js "/" ++ s1 ++ js "/"), s3.
  split; [by rewrite Hhref, <- !app_assoc|].
  split; [done|]. eapply allIn_weaken; [apply lowerAlnum_word | done].
Qed.

Lemma leaf_check_wins_collision_witness :
  href collisionAnchor
  = js "https://birds.peipsi.org" ++ js "/" ++ js "poganki" ++ js "/"
    ++ js "reference" ++ js "/" ++ js "chomga" ++ js "/" /\
  anchorToken collisionAnchor = Some (href collisionAnchor).
Proof.
  assert (Hhref : href collisionAnchor
    = js "https://birds.peipsi.org" ++ js "/" ++ js "poganki" ++ js "/"
      ++ js "reference" ++ js "/" ++ js "chomga" ++ js "/")
    by (vm_compute; reflexivity).
  split; [exact Hhref|].
  refine (proj2 (proj2 (leaf_check_wins_collision collisionAnchor
            (js "https://birds.peipsi.org") (js "poganki") (js "chomga")
            Hhref _ _ _ _))).
  - split; [vm_compute; discriminate | vm_compute; reflexivity].
  - vm_compute. reflexivity.
  - vm_compute. reflexivity.
  - split; [vm_compute; discriminate | vm_compute; reflexivity].
Defined.

(** ** When the traversal returns and when it aborts *)

Section TraversalFacts.

Variable upper : N -> list N.
Variable site : jsstring -> option Document.

Lemma classify_inl item e :
  classify upper item = inl e -> item = [] /\ e = TypeError.
Proof.
  unfold classify. destruct item as [|u0 item]; simpl; [by intros [= <-]|done].
Qed.

Lemma classify_verdict item v :
  classify upper item = inr v ->
  item <> [] /\
  (v = OrderMarker item /\ isLeaf upper item = false \/
   v = FamilyMarker item /\ isLeaf upper item = false \/
   v = Leaf item /\ isLeaf upper item = true).
Proof.
  intros Hc. split; [intros ->; done|].
  unfold isLeaf. rewrite Hc.
  destruct (classify_token upper _ _ Hc) as [-> | [-> | ->]]; auto.
Qed.

Lemma iteration_returns_iff item st :
  (exists st', iteration upper site item st = Return tt st')
  <-> candidateOk upper site item.
Proof.
  rewrite iteration_classify. unfold candidateOk.
  destruct (classify upper item) as [e|v] eqn:Hc.
  { apply classify_inl in Hc as [-> ->]. split; [by intros [? ?] | by intros [? _]]. }
  destruct (classify_verdict _ _ Hc) as [Hne [[-> Hl] | [[-> Hl] | [-> Hl]]]];
    rewrite Hl.
  - split; [done | eauto].
  - split; [done | eauto].
  - rewrite visitLeaf_spec. destruct (site item) as [d|].
    + destruct (extractDetails d) as [e|details] eqn:Ed.
      * split; [by intros [? ?]|]. intros [_ H].
        destruct (H eq_refl) as (d' & [= <-] & Hwf).
        apply wellFormed_extractDetails in Hwf as [? ?]. congruence.
      * split; [|eauto]. intros _. split; [done|]. intros _.
        exists d. split; [done|]. apply wellFormed_extractDetails. eauto.
    + split; [by intros [? ?]|]. intros [_ H].
      by destruct (H eq_refl) as (? & ? & _).
Qed.

Lemma forOf_returns_iff items : forall st,
  (exists st', forOf upper site items st = Return tt st')
  <-> Forall (candidateOk upper site) items.
Proof.
  induction items as [|item items IH]; intros st.
  - split; [constructor | intros _; by eexists].
  - rewrite forOf_cons, Forall_cons, <- (iteration_returns_iff item st).
    destruct (iteration upper site item st) as [[] st1|e st1].
    + rewrite <- (IH st1). split; [eauto | tauto].
    + split; [by intros [? ?] | by intros [[? ?] _]].
Qed.

Lemma forOf_throws items : forall st e st',
  forOf upper site items st = Throw e st' ->
  exists pre bad post st1,
    items = pre ++ bad :: post /\
    forOf upper site pre st = Return tt st1 /\
    iteration upper site bad st1 = Throw e st'.
Proof.
  induction items as [|item items IH]; intros st e st' H; [done|].
  rewrite forOf_cons in H.
  destruct (iteration upper site item st) as [[] st1|e1 st1] eqn:Hit.
  - apply IH in H as (pre & bad & post & st2 & -> & Hpre & Hbad).
    exists (item :: pre), bad, post, st2. split; [done|].
    split; [|done]. by rewrite forOf_cons, Hit.
  - injection H as <- <-. exists [], item, items, st. done.
Qed.

Lemma iteration_throws bad st e st' :
  iteration upper site bad st = Throw e st' ->
  (bad = [] /\ e = TypeError /\ st' = st) \/
  (isLeaf upper bad = true /\ site bad = None /\
   e = NavigationError bad /\ st' = strandedAt bad st) \/
  (isLeaf upper bad = true /\
   exists d, site bad = Some d /\ extractDetails d = inl e /\
             st' = arrivedAt bad d st).
Proof.
  rewrite iteration_classify.
  destruct (classify upper bad) as [e1|v] eqn:Hc.
  { apply classify_inl in Hc as [-> ->]. intros [= <- <-]. auto. }
  destruct (classify_verdict _ _ Hc) as [Hne [[-> Hl] | [[-> Hl] | [-> Hl]]]];
    [done | done |].
  rewrite visitLeaf_spec. destruct (site bad) as [d|].
  - destruct (extractDetails d) as [e1|details] eqn:Ed; [|done].
    intros [= <- <-]. right. right. eauto.
  - intros [= <- <-]. right. left. auto.
Qed.

Lemma forOf_visited items : forall st st',
  forOf upper site items st = Return tt st' ->
  visited st' = visited st ++ List.filter (isLeaf upper) items /\
  birdClassification st' !! "order"
  = carried (isOrderMarker upper) items (birdClassification st !! "order") /\
  birdClassification st' !! "family"
  = carried (isFamilyMarker upper) items (birdClassification st !! "family").
Proof.
  induction items as [|item items IH]; intros st st' Hrun.
  { injection Hrun as <-. by rewrite app_nil_r. }
  rewrite forOf_cons, iteration_classify in Hrun.
  destruct (classify upper item) as [e|v] eqn:Hc; [done|].
  destruct (classify_token upper _ _ Hc) as [-> | [-> | ->]].
  - apply IH in Hrun as (Hv & Ho & Hf).
    assert (isOrderMarker upper item = true)
      by (unfold isOrderMarker; by rewrite Hc).
    assert (isFamilyMarker upper item = false)
      by (unfold isFamilyMarker; by rewrite Hc).
    assert (Hl : isLeaf upper item = false) by (unfold isLeaf; by rewrite Hc).
    simpl. rewrite Hl, Hv, Ho, Hf.
    rewrite (carried_cons_marker (isOrderMarker upper)),
      (carried_cons_other (isFamilyMarker upper)) by done.
    simpl. rewrite lookup_insert_eq. by rewrite lookup_insert_ne.
  - apply IH in Hrun as (Hv & Ho & Hf).
    assert (isOrderMarker upper item = false)
      by (unfold isOrderMarker; by rewrite Hc).
    assert (isFamilyMarker upper item = true)
      by (unfold isFamilyMarker; by rewrite Hc).
    assert (Hl : isLeaf upper item = false) by (unfold isLeaf; by rewrite Hc).
    simpl. rewrite Hl, Hv, Ho, Hf.
    rewrite (carried_cons_other (isOrderMarker upper)),
      (carried_cons_marker (isFamilyMarker upper)) by done.
    simpl. rewrite lookup_insert_eq. by rewrite lookup_insert_ne.
  - rewrite visitLeaf_spec in Hrun.
    destruct (site item) as [d|]; [|done].
    destruct (extractDetails d) as [e|details]; [done|].
    apply IH in Hrun as (Hv & Ho & Hf).
    assert (isOrderMarker upper item = false)
      by (unfold isOrderMarker; by rewrite Hc).
    assert (isFamilyMarker upper item = false)
      by (unfold isFamilyMarker; by rewrite Hc).
    assert (Hl : isLeaf upper item = true) by (unfold isLeaf; by rewrite Hc).
    simpl. rewrite Hl, Hv, Ho, Hf. simpl.
    rewrite !carried_cons_other by done. by rewrite <- app_assoc.
Qed.

End TraversalFacts.

(** X6: the loop of [getBirdsData], run on a list of candidates from any
    state, reaches its end exactly when no candidate is the empty token and
    every candidate taken for a leaf has a page that loads and on which all
    four extractions succeed.  (What [getItems] does before the loop, on an
    anchor whose [href] is not a string for one, is not part of this
    statement.) *)
Theorem traversal_returns_iff upper site items st :
  (exists st', forOf upper site items st = Return tt st')
  <-> Forall (candidateOk upper site) items.
Proof.
  revert st. induction items as [|item items IH]; intros st.
  - split; [constructor | intros _; by eexists].
  - rewrite forOf_cons, Forall_cons.
    pose proof (iteration_returns_iff upper site item st) as Hit.
    destruct (iteration upper site item st) as [[] st1|e st1].
    + rewrite <- (IH st1). split.
      * intros Hrest. split; [apply Hit; eauto | done].
      * by intros [_ Hrest].
    + split; [by intros [? ?]|]. intros [Hok _].
      apply Hit in Hok as [? ?]. done.
Qed.

(** X7: when the loop of [getBirdsData], run on a list of candidates from
    any state, ends in an exception, the candidates before the first
    offending one were processed in full, and that one is either the empty
    token ([TypeError]), or a leaf address to which the navigation failed,
    or a leaf address whose page made an extraction fail; the records held
    at that moment are those held at the start and one for each leaf
    before it.  (An exception of [getItems], raised before the loop, is
    not part of this statement.) *)
Theorem traversal_abort_cause upper site items st0 e st' :
  forOf upper site items st0 = Throw e st' ->
  exists pre bad post st new,
    items = pre ++ bad :: post /\
    forOf upper site pre st0 = Return tt st /\
    Forall (candidateOk upper site) pre /\
    ~ candidateOk upper site bad /\
    birdsData st' = birdsData st /\
    birdsData st' = birdsData st0 ++ new /\
    length new = length (List.filter (isLeaf upper) pre) /\
    ((bad = [] /\ e = TypeError /\ st' = st) \/
     (isLeaf upper bad = true /\ site bad = None /\
      e = NavigationError bad /\ st' = strandedAt bad st) \/
     (isLeaf upper bad = true /\
      exists d, site bad = Some d /\ extractDetails d = inl e /\
                st' = arrivedAt bad d st)).
Proof.
  intros Hloop.
  apply forOf_throws in Hloop as (pre & bad & post & st & Hitems & Hpre & Hbad).
  pose proof (forOf_records upper site pre _ _ Hpre) as (new & Hdata & Hlen & _).
  exists pre, bad, post, st, new. split; [done|]. split; [done|].
  split; [apply (forOf_returns_iff upper site pre st0); eauto|].
  split.
  { intros Hok. apply (iteration_returns_iff upper site bad st) in Hok as [? Hok].
    congruence. }
  pose proof (iteration_throws upper site bad st e st' Hbad) as Hcause.
  assert (Hsame : birdsData st' = birdsData st).
  { destruct Hcause as [(_ & _ & ->) | [(_ & _ & _ & ->) | (_ & d & _ & _ & ->)]];
      done. }
  split; [done|]. split; [by rewrite Hsame, Hdata|]. done.
Qed.

(** X8: when [getBirdsData] returns, the page was sent to the leaf
    candidates, each once per occurrence and in their order, and to nothing
    else; the classification it ends with holds the last order marker and
    the last family marker of the whole list. *)
Theorem visits_are_the_leaves upper site st0 records st' :
  getBirdsData upper site st0 = Return records st' ->
  visited st' = visited st0 ++ List.filter (isLeaf upper) (getItems (page st0)) /\
  birdClassification st' !! "order"
  = lastMarker (isOrderMarker upper) (getItems (page st0)) /\
  birdClassification st' !! "family"
  = lastMarker (isFamilyMarker upper) (getItems (page st0)).
Proof.
  rewrite getBirdsData_spec. intros H.
  destruct (forOf upper site (getItems (page st0)) (initLocals st0))
    as [[] st|e1 st1] eqn:Hloop; [|done].
  injection H as <- <-.
  apply forOf_visited in Hloop as (Hv & Ho & Hf).
  split; [done|]. rewrite Ho, Hf. unfold carried. simpl.
  rewrite !lookup_empty. by destruct (lastMarker _ _), (lastMarker _ _).
Qed.

Lemma traversal_returns_iff_witness :
  Forall (candidateOk upperLatinCyrillic sampleSite)
    [js "ПОГАНКООБРАЗНЫЕ"; js "Поганковые"; leafUrl].
Proof.
  apply (proj1 (traversal_returns_iff upperLatinCyrillic sampleSite
                  [js "ПОГАНКООБРАЗНЫЕ"; js "Поганковые"; leafUrl]
                  (startAt (listing [])))).
  eexists. vm_compute. reflexivity.
Defined.

Lemma traversal_abort_cause_witness :
  let items := [js "ПОГАНКООБРАЗНЫЕ"; leafUrl; brokenUrl; leafUrl] in
  let st0 := startAt (listing []) in
  exists e st' pre bad post,
    forOf upperLatinCyrillic sampleSite items st0 = Throw e st' /\
    items = pre ++ bad :: post /\
    ~ candidateOk upperLatinCyrillic sampleSite bad /\
    length (birdsData st')
    = length (List.filter (isLeaf upperLatinCyrillic) pre).
Proof.
  intros items st0.
  assert (Hrun : exists e st',
    forOf upperLatinCyrillic sampleSite items st0 = Throw e st')
    by (eexists _, _; vm_compute; reflexivity).
  destruct Hrun as (e & st' & Hrun).
  destruct (traversal_abort_cause upperLatinCyrillic sampleSite items st0
              e st' Hrun)
    as (pre & bad & post & st & new & Hitems & _ & _ & Hbad & _ & Hdata
        & Hlen & _).
  exists e, st', pre, bad, post. split; [exact Hrun|].
  split; [exact Hitems|]. split; [exact Hbad|].
  rewrite Hdata, <- Hlen. reflexivity.
Defined.

Lemma visits_are_the_leaves_witness :
  let st0 := startAt (listing twoFamilies) in
  exists records st',
    getBirdsData upperLatinCyrillic sampleSite st0 = Return records st' /\
    visited st' = [leafUrl; leafUrl] /\
    birdClassification st' !! "order" = Some (js "ПОГАНКООБРАЗНЫЕ").
Proof.
  intros st0.
  assert (Hrun : exists records st',
    getBirdsData upperLatinCyrillic sampleSite st0 = Return records st')
    by (eexists _, _; vm_compute; reflexivity).
  destruct Hrun as (records & st' & Hrun).
  destruct (visits_are_the_leaves upperLatinCyrillic sampleSite st0
              records st' Hrun) as (Hv & Ho & _).
  exists records, st'. split; [exact Hrun|].
  split; [rewrite Hv | rewrite Ho]; vm_compute; reflexivity.
Defined.

(** ** What a record holds *)

Section RecordFacts.

Variable upper : N -> list N.
Variable site : jsstring -> option Document.

Lemma extractDetails_inr d details :
  extractDetails d = inr details ->
  exists title signs habitat i1 m1 i2 m2,
    article_h1 d = Some title /\ article_p1 d = Some signs /\
    article_p2 d = Some habitat /\
    jsMatch title regExpRusName = Some (i1, m1) /\
    jsMatch title regExpLatName = Some (i2, m2) /\
    details = <["habitat" := replace (js "Местообитание. ") [] habitat]>
              (<["signs" := replace (js "Признаки. ") [] signs]>
              (<["latName" := trim m2]> (<["rusName" := trim m1]> ∅))).
Proof.
  unfold extractDetails, firstMatchTrimmed. intros H.
  destruct (article_h1 d) as [title|]; [|done].
  destruct (jsMatch title regExpRusName) as [[i1 m1]|] eqn:E1; [|done].
  destruct (jsMatch title regExpLatName) as [[i2 m2]|] eqn:E2; [|done].
  destruct (article_p1 d) as [signs|]; [|done].
  destruct (article_p2 d) as [habitat|]; [|done].
  injection H as <-.
  exists title, signs, habitat, i1, m1, i2, m2.
  repeat split; first [reflexivity | assumption].
Qed.

Lemma forOf_record_fields items : forall st st',
  forOf upper site items st = Return tt st' ->
  dom (birdClassification st) ⊆ contextKeys ->
  exists new,
    birdsData st' = birdsData st ++ new /\
    forall pre leaf post,
      items = pre ++ leaf :: post -> isLeaf upper leaf = true ->
      exists d details ctx,
        site leaf = Some d /\ extractDetails d = inr details /\
        dom ctx ⊆ contextKeys /\
        new !! length (List.filter (isLeaf upper) pre)
        = Some (details ∪ ctx).
Proof.
  induction items as [|item items IH]; intros st st' Hrun Hdom.
  { injection Hrun as <-. exists []. rewrite app_nil_r.
    split; [done|]. intros [|? ?] ? ? [=]. }
  rewrite forOf_cons, iteration_classify in Hrun.
  destruct (classify upper item) as [e|v] eqn:Hc; [done|].
  destruct (classify_token upper _ _ Hc) as [-> | [-> | ->]].
  - apply IH in Hrun as (new & Hdata & Hrec).
    2: { simpl. rewrite dom_insert_L. apply union_subseteq. split; [|done].
         apply union_subseteq_l. }
    assert (Hl : isLeaf upper item = false) by (unfold isLeaf; by rewrite Hc).
    exists new. split; [done|].
    intros [|item' pre] leaf post Heq Hleaf; simpl in Heq;
      injection Heq as <- ->; [congruence|].
    simpl. rewrite Hl. eauto.
  - apply IH in Hrun as (new & Hdata & Hrec).
    2: { simpl. rewrite dom_insert_L. apply union_subseteq. split; [|done].
         apply union_subseteq_r. }
    assert (Hl : isLeaf upper item = false) by (unfold isLeaf; by rewrite Hc).
    exists new. split; [done|].
    intros [|item' pre] leaf post Heq Hleaf; simpl in Heq;
      injection Heq as <- ->; [congruence|].
    simpl. rewrite Hl. eauto.
  - rewrite visitLeaf_spec in Hrun.
    destruct (site item) as [d|] eqn:Hsite; [|done].
    destruct (extractDetails d) as [e|details] eqn:Ed; [done|].
    apply IH in Hrun as (new & Hdata & Hrec); [|done].
    assert (Hl : isLeaf upper item = true) by (unfold isLeaf; by rewrite Hc).
    exists ((details ∪ birdClassification st) :: new).
    simpl in Hdata. split; [by rewrite Hdata, <- app_assoc|].
    intros [|item' pre] leaf post Heq Hleaf; simpl in Heq;
      injection Heq as <- ->; simpl.
    + exists d, details, (birdClassification st). done.
    + rewrite Hl. simpl. eauto.
Qed.

End RecordFacts.

(** X9: every record [getBirdsData] returns holds the four fields read
    from the page of its own leaf: the first match of each name pattern in
    the heading, trimmed, and the two paragraphs with the first occurrence
    of their label removed; beside these it has at most the keys [order]
    and [family]. *)
Theorem record_fields_from_leaf_page upper site st0 records st' :
  getBirdsData upper site st0 = Return records st' ->
  forall pre leaf post,
    getItems (page st0) = pre ++ leaf :: post ->
    isLeaf upper leaf = true ->
    exists r d title signs habitat i1 m1 i2 m2,
      records !! length (List.filter (isLeaf upper) pre) = Some r /\
      site leaf = Some d /\
      article_h1 d = Some title /\
      article_p1 d = Some signs /\
      article_p2 d = Some habitat /\
      jsMatch title regExpRusName = Some (i1, m1) /\
      jsMatch title regExpLatName = Some (i2, m2) /\
      r !! "rusName" = Some (trim m1) /\
      r !! "latName" = Some (trim m2) /\
      r !! "signs" = Some (replace (js "Признаки. ") [] signs) /\
      r !! "habitat" = Some (replace (js "Местообитание. ") [] habitat) /\
      dom r ⊆ contextKeys ∪ detailKeys.
Proof.
  rewrite getBirdsData_spec. intros H pre leaf post Hitems Hleaf.
  destruct (forOf upper site (getItems (page st0)) (initLocals st0))
    as [[] st|e1 st1] eqn:Hloop; [|done].
  injection H as <- <-.
  apply forOf_record_fields in Hloop as (new & Hdata & Hrec).
  2: { simpl. rewrite dom_empty_L. set_solver. }
  simpl in Hdata. subst new.
  destruct (Hrec pre leaf post Hitems Hleaf)
    as (d & details & ctx & Hsite & Hd & Hctx & Hr).
  apply extractDetails_inr in Hd
    as (title & signs & habitat & i1 & m1 & i2 & m2
        & Hh & Hp1 & Hp2 & Hm1 & Hm2 & ->).
  eexists _, d, title, signs, habitat, i1, m1, i2, m2.
  split; [exact Hr|]. repeat (split; [done|]).
  repeat (split; [by apply lookup_union_Some_l; simplify_map_eq|]).
  rewrite dom_union_L, !dom_insert_L, dom_empty_L.
  apply union_subseteq. split; [|by apply union_subseteq_l'].
  apply union_subseteq_r'. unfold detailKeys. clear. set_solver.
Qed.

Lemma record_fields_from_leaf_page_witness :
  let st0 := startAt (listing [orderAnchor; familyAnchor; leafAnchor]) in
  exists records st' r,
    getBirdsData upperLatinCyrillic sampleSite st0 = Return records st' /\
    records !! 0%nat = Some r /\
    r !! "rusName" = Some (js "Чомга") /\
    r !! "signs" = Some (js "Крупная птица с хохолком.").
Proof.
  intros st0.
  assert (Hrun : exists records st',
    getBirdsData upperLatinCyrillic sampleSite st0 = Return records st')
    by (eexists _, _; vm_compute; reflexivity).
  destruct Hrun as (records & st' & Hrun).
  destruct (record_fields_from_leaf_page upperLatinCyrillic sampleSite st0
              records st' Hrun [js "ПОГАНКООБРАЗНЫЕ"; js "Поганковые"]
              leafUrl [])
    as (r & d & title & signs & habitat & i1 & m1 & i2 & m2 & Hr & Hsite
        & Hh & Hp1 & _ & Hm1 & _ & Hrus & _ & Hsigns & _).
  - vm_compute. reflexivity.
  - vm_compute. reflexivity.
  - exists records, st', r. split; [exact Hrun|]. split; [exact Hr|].
    vm_compute in Hsite. injection Hsite as <-.
    vm_compute in Hh. injection Hh as <-.
    vm_compute in Hp1. injection Hp1 as <-.
    vm_compute in Hm1. injection Hm1 as _ <-.
    split; [rewrite Hrus | rewrite Hsigns]; vm_compute; reflexivity.
Defined.

(** ** The shape of the extracted names *)

Section NameFacts.

Lemma lang_seq_cons r rs x y :
  lang (seq (r :: rs)) x y <-> exists z, lang r x z /\ lang (seq rs) z y.
Proof. reflexivity. Qed.

Lemma trimStart_keeps c s :
  isWhiteSpace c = false -> trimStart (c :: s) = c :: s.
Proof. intros H. simpl. by rewrite H. Qed.

Lemma trimStart_head s :
  trimStart s = [] \/
  exists c t, trimStart s = c :: t /\ isWhiteSpace c = false.
Proof.
  induction s as [|a s IH]; simpl; [auto|].
  destruct (isWhiteSpace a) eqn:E; [done|]. right. eauto.
Qed.

Lemma trimStart_snoc l c :
  isWhiteSpace c = false -> exists t, trimStart (l ++ [c]) = t ++ [c].
Proof.
  intros Hc. induction l as [|a l IH]; simpl.
  - rewrite Hc. by exists [].
  - destruct (isWhiteSpace a); [done|]. by exists (a :: l).
Qed.

Lemma trimEnd_keeps_head c s :
  isWhiteSpace c = false -> exists t, trimEnd (c :: s) = c :: t.
Proof.
  intros Hc. unfold trimEnd. simpl.
  destruct (trimStart_snoc (rev s) c Hc) as [t ->].
  rewrite rev_app_distr. simpl. eauto.
Qed.

Lemma trim_last s l : last (trim s) = Some l -> isWhiteSpace l = false.
Proof.
  unfold trim, trimEnd.
  destruct (trimStart_head (rev (trimStart s))) as [-> | (c & t & -> & Hc)];
    [done|].
  simpl. rewrite last_snoc. by intros [= <-].
Qed.

Lemma trim_id c s l :
  isWhiteSpace c = false -> last (c :: s) = Some l -> isWhiteSpace l = false ->
  trim (c :: s) = c :: s.
Proof.
  intros Hc Hlast Hl. unfold trim. rewrite (trimStart_keeps c s Hc).
  unfold trimEnd. apply last_Some in Hlast as [t Ht]. rewrite Ht.
  rewrite rev_app_distr. simpl. rewrite Hl. simpl.
  by rewrite rev_involutive.
Qed.

Lemma cyrillic_not_whiteSpace c :
  inRanges c (cyrillicRanges ++ [single "-"]) = true -> isWhiteSpace c = false.
Proof.
  change (cyrillicRanges ++ [single "-"])
    with [(1040, 1071); (1072, 1103); (1105, 1105); (45, 45)].
  unfold isWhiteSpace, whiteSpaceRanges, inRanges. cbn [existsb fst snd].
  rewrite !orb_true_iff, !andb_true_iff, !N.leb_le. intros H.
  rewrite !orb_false_iff, !andb_false_iff, !N.leb_gt. lia.
Qed.

Lemma letter_not_whiteSpace c :
  inRanges c letterRanges = true -> isWhiteSpace c = false.
Proof.
  change letterRanges with [(97, 122); (65, 90)].
  unfold isWhiteSpace, whiteSpaceRanges, inRanges. cbn [existsb fst snd].
  rewrite !orb_true_iff, !andb_true_iff, !N.leb_le. intros H.
  rewrite !orb_false_iff, !andb_false_iff, !N.leb_gt. lia.
Qed.

Lemma extract_name_inv re (m : M jsstring) st v st' :
  (forall st, m st = match article_h1 (page st) with
                     | Some title => lift (firstMatchTrimmed title re) st
                     | None => Throw (ElementNotFound ArticleH1) st
                     end) ->
  m st = Return v st' ->
  exists title pre m0 rest,
    article_h1 (page st) = Some title /\
    title = pre ++ m0 ++ rest /\
    lang re (m0 ++ rest) rest /\
    (forall k y, (k < length pre)%nat -> ~ lang re (drop k title) y) /\
    v = trim m0 /\ st' = st.
Proof.
  intros Hm H. rewrite Hm in H.
  destruct (article_h1 (page st)) as [title|]; [|done].
  unfold firstMatchTrimmed in H.
  destruct (jsMatch title re) as [[i m0]|] eqn:E; [|done].
  injection H as <- <-.
  apply jsMatch_sound in E as (pre & y & -> & Hl & _ & Hleft).
  exists (pre ++ m0 ++ y), pre, m0, y. done.
Qed.

Lemma extractRusName_unfold st :
  extractRusName st = match article_h1 (page st) with
                      | Some title => lift (firstMatchTrimmed title regExpRusName) st
                      | None => Throw (ElementNotFound ArticleH1) st
                      end.
Proof.
  unfold extractRusName, evalTextContent, mbind, M_bind, bind.
  cbn [querySelector]. by destruct (article_h1 (page st)).
Qed.

Lemma extractLatName_unfold st :
  extractLatName st = match article_h1 (page st) with
                      | Some title => lift (firstMatchTrimmed title regExpLatName) st
                      | None => Throw (ElementNotFound ArticleH1) st
                      end.
Proof.
  unfold extractLatName, evalTextContent, mbind, M_bind, bind.
  cbn [querySelector]. by destruct (article_h1 (page st)).
Qed.

End NameFacts.

(** X10: a Russian name that [extractRusName] returns is never empty: it
    begins with the first character of the heading that lies in the class
    [А-Яа-яё-] of the pattern (the letters А to Я and а to я, ё, and the
    hyphen; the capital Ё is not in the class, so a heading that begins
    with it loses it), and it does not end with white space. *)
Theorem rus_name_shape st v st' :
  extractRusName st = Return v st' ->
  exists title pre c rest,
    article_h1 (page st) = Some title /\
    v = c :: rest /\
    inRanges c (cyrillicRanges ++ [single "-"]) = true /\
    Forall (fun u => inRanges u (cyrillicRanges ++ [single "-"]) = false) pre /\
    (exists after, title = pre ++ c :: after) /\
    (forall l, last v = Some l -> isWhiteSpace l = false).
Proof.
  intros H.
  apply (extract_name_inv regExpRusName _ _ _ _ extractRusName_unfold) in H
    as (title & pre & m0 & y & Hh & Htitle & Hl & Hleft & -> & ->).
  unfold regExpRusName in Hl. apply lang_seq_cons in Hl as (z1 & H1 & Hrest).
  apply lang_plus_class_inv in H1 as (w & Hw & [Hne Hall]).
  apply lang_suffix in Hrest as [m' ->].
  rewrite (app_assoc w m' y) in Hw. apply app_inv_tail in Hw as ->.
  destruct w as [|c w]; [done|]. simpl in Hall.
  apply andb_true_iff in Hall as [Hc Hw].
  pose proof (cyrillic_not_whiteSpace c Hc) as Hws.
  assert (Htrim : exists t, trim ((c :: w) ++ m') = c :: t).
  { unfold trim. simpl app. rewrite (trimStart_keeps c _ Hws).
    by apply trimEnd_keeps_head. }
  destruct Htrim as [t Ht].
  exists title, pre, c, t. split; [done|]. split; [done|]. split; [done|].
  split; [|split].
  - (* no character of the class stands before the match *)
    apply Forall_forall. intros u Hu.
    apply list_elem_of_lookup in Hu as [k Hk].
    destruct (inRanges u (cyrillicRanges ++ [single "-"])) eqn:E; [|done].
    pose proof (lookup_lt_Some _ _ _ Hk) as Hlt.
    destruct (Hleft k (drop (S k) title) Hlt).
    assert (Hdrop : drop k title = u :: drop (S k) title).
    { apply drop_S. rewrite Htitle. by apply lookup_app_l_Some. }
    rewrite Hdrop. unfold regExpRusName.
    apply lang_seq_cons. exists (drop (S k) title). split.
    + apply (lang_plus_class _ true [u] (drop (S k) title)); [done|].
      unfold allIn. cbn [forallb]. by rewrite E.
    + apply lang_seq_cons. exists (drop (S k) title).
      split; [apply (lang_star_class _ true []); done|].
      apply lang_seq_cons. exists (drop (S k) title).
      split; [apply (lang_star_class _ true []); done|].
      apply lang_seq_cons. exists (drop (S k) title).
      split; [constructor; auto | done].
  - exists (w ++ m' ++ y). rewrite Htitle. simpl. by rewrite <- !app_assoc.
  - intros l. apply trim_last.
Qed.

Lemma rus_name_shape_witness :
  exists c rest,
    extractRusName (startAt yolochnyPage)
    = Return (c :: rest) (startAt yolochnyPage) /\
    c :: rest = js "лочный клёст" /\
    inRanges c (cyrillicRanges ++ [single "-"]) = true.
Proof.
  assert (Hrun : exists v st',
    extractRusName (startAt yolochnyPage) = Return v st')
    by (eexists _, _; vm_compute; reflexivity).
  destruct Hrun as (v & st' & Hrun).
  destruct (rus_name_shape (startAt yolochnyPage) v st' Hrun)
    as (title & pre & c & rest & _ & -> & Hc & _).
  exists c, rest.
  assert (Hv : Return (c :: rest) st'
               = Return (js "лочный клёст") (startAt yolochnyPage)).
  { rewrite <- Hrun. vm_compute. reflexivity. }
  injection Hv as Hv1 Hv2 Hst. subst st'.
  split; [exact Hrun|]. split; [|exact Hc].
  vm_compute. by rewrite Hv1, Hv2.
Defined.

Lemma allIn_elem rs w u :
  allIn rs w = true -> u ∈ w -> inRanges u rs = true.
Proof.
  induction w as [|c w IH]; simpl; intros Hw Hin.
  - by apply elem_of_nil in Hin.
  - apply andb_true_iff in Hw as [Hc Hw].
    apply elem_of_cons in Hin as [-> | Hin]; auto.
Qed.

(** X11: a Latin name that [extractLatName] returns is a piece of the
    heading made of one run of Latin letters, at most one white-space
    character, and a second run of Latin letters; it has at least two
    characters, is returned untrimmed as matched, and no such piece begins
    further left in the heading. *)
Theorem lat_name_shape st v st' :
  extractLatName st = Return v st' ->
  exists title pre rest w1 sp w2,
    article_h1 (page st) = Some title /\
    title = pre ++ v ++ rest /\
    v = w1 ++ sp ++ w2 /\
    segment letterRanges w1 /\
    segment letterRanges w2 /\
    (sp = [] \/ exists c, sp = [c] /\ isWhiteSpace c = true) /\
    (2 <= length v)%nat /\
    (forall k y, (k < length pre)%nat -> ~ lang regExpLatName (drop k title) y).
Proof.
  intros H.
  apply (extract_name_inv regExpLatName _ _ _ _ extractLatName_unfold) in H
    as (title & pre & m0 & y & Hh & Htitle & Hl & Hleft & -> & ->).
  unfold regExpLatName in Hl.
  apply lang_seq_cons in Hl as (z1 & H1 & Hl).
  apply lang_seq_cons in Hl as (z2 & H2 & Hl).
  apply lang_seq_cons in Hl as (z3 & H3 & Hl).
  simpl in Hl. subst z3.
  apply lang_plus_class_inv in H1 as (w1 & Hw1 & Hs1).
  apply lang_plus_class_inv in H3 as (w2 & -> & Hs2).
  assert (Hsp : exists sp, z1 = sp ++ w2 ++ y /\
                (sp = [] \/ exists c, sp = [c] /\ isWhiteSpace c = true)).
  { apply lang_opt_inv in H2 as [<- | (c & -> & Hc)].
    - exists []. auto.
    - exists [c]. split; [done|]. right. exists c. done. }
  destruct Hsp as (sp & -> & Hsp).
  assert (Hm0 : m0 = w1 ++ sp ++ w2).
  { apply (app_inv_tail y). by rewrite Hw1, <- !app_assoc. }
  destruct Hs1 as [Hne1 Hall1]. destruct Hs2 as [Hne2 Hall2].
  assert (Htrim : trim m0 = m0).
  { rewrite Hm0. destruct w1 as [|c w1]; [done|].
    assert (Hlast : is_Some (last ((c :: w1) ++ sp ++ w2))).
    { rewrite !last_app. destruct (last w2) eqn:E; [eauto|].
      apply last_None in E. done. }
    destruct Hlast as [l Hlast].
    apply (trim_id c _ l); [| exact Hlast |].
    - apply letter_not_whiteSpace. simpl in Hall1.
      by apply andb_true_iff in Hall1 as [? _].
    - apply letter_not_whiteSpace. apply (allIn_elem _ w2); [done|].
      rewrite !last_app in Hlast. destruct (last w2) as [l'|] eqn:E.
      + injection Hlast as <-. apply last_Some in E as [t ->].
        apply elem_of_app. right. by left.
      + apply last_None in E. done. }
  rewrite Htrim.
  exists title, pre, y, w1, sp, w2. split; [done|]. split; [done|].
  split; [done|]. split; [done|]. split; [done|]. split; [done|].
  split; [|done]. rewrite Hm0, !length_app.
  destruct w1, w2; simpl; try done; lia.
Qed.

Lemma lat_name_shape_witness :
  exists w1 sp w2,
    extractLatName (startAt chomgaPage)
    = Return (w1 ++ sp ++ w2) (startAt chomgaPage) /\
    segment letterRanges w1 /\ segment letterRanges w2.
Proof.
  assert (Hrun : exists v st',
    extractLatName (startAt chomgaPage) = Return v st')
    by (eexists _, _; vm_compute; reflexivity).
  destruct Hrun as (v & st' & Hrun).
  destruct (lat_name_shape (startAt chomgaPage) v st' Hrun)
    as (title & pre & rest & w1 & sp & w2 & _ & _ & -> & Hs1 & Hs2 & _).
  exists w1, sp, w2. split; [|split; [exact Hs1 | exact Hs2]].
  rewrite Hrun. f_equal.
  vm_compute in Hrun. by injection Hrun.
Defined.

(** ** Classification and the case mapping *)

Section CaseFacts.

Variable upper : N -> list N.

Lemma encode_pair lead trail :
  isLeadingSurrogate lead = true -> isTrailingSurrogate trail = true ->
  UTF16EncodeCodePoint (UTF16SurrogatePairToCodePoint lead trail)
  = [lead; trail].
Proof.
  unfold isLeadingSurrogate, isTrailingSurrogate, UTF16EncodeCodePoint,
    UTF16SurrogatePairToCodePoint.
  rewrite !andb_true_iff, !N.leb_le. intros [? ?] [? ?].
  destruct (N.leb_spec ((lead - 55296) * 1024 + (trail - 56320) + 65536) 65535);
    [lia|].
  replace ((lead - 55296) * 1024 + (trail - 56320) + 65536 - 65536)
    with ((trail - 56320) + (lead - 55296) * 1024) by lia.
  rewrite N.div_add by done. rewrite N.Div0.mod_add.
  rewrite N.div_small, N.mod_small by lia.
  f_equal; [lia | f_equal; lia].
Qed.

Lemma encode_unit u : u <= 65535 -> UTF16EncodeCodePoint u = [u].
Proof.
  intros H. unfold UTF16EncodeCodePoint.
  by destruct (N.leb_spec u 65535); [|lia].
Qed.

(** Decoding a well-formed string to code points and encoding them again
    gives the string back. *)
Lemma code_points_round_trip s :
  Forall (fun u => u <= 65535) s ->
  CodePointsToString (StringToCodePoints s) = s.
Proof.
  remember (length s) as n eqn:Hn. revert s Hn.
  induction n as [n IH] using lt_wf_ind. intros s -> Hs.
  destruct s as [|first rest]; [done|].
  apply Forall_cons in Hs as [Hfirst Hrest]. cbn [StringToCodePoints].
  destruct (isLeadingSurrogate first) eqn:Elead.
  - destruct rest as [|second rest'].
    { unfold CodePointsToString. cbn [flat_map]. by rewrite encode_unit. }
    pose proof Hrest as Hrest0.
    apply Forall_cons in Hrest as [Hsecond Hrest'].
    destruct (isTrailingSurrogate second) eqn:Etrail.
    + unfold CodePointsToString. cbn [flat_map].
      rewrite encode_pair by done. cbn [app]. do 2 f_equal.
      exact (IH (length rest') ltac:(simpl; lia) rest' eq_refl Hrest').
    + unfold CodePointsToString. cbn [flat_map].
      rewrite encode_unit by done. cbn [app]. f_equal.
      exact (IH (length (second :: rest')) ltac:(simpl; lia)
               (second :: rest') eq_refl Hrest0).
  - unfold CodePointsToString. cbn [flat_map].
    rewrite encode_unit by done. cbn [app]. f_equal.
    exact (IH (length rest) ltac:(simpl; lia) rest eq_refl Hrest).
Qed.

Lemma flat_map_fixed (l : list N) :
  Forall (fun cp => upper cp = [cp]) l -> flat_map upper l = l.
Proof.
  induction 1 as [|cp l Hcp _ IH]; simpl; [done|]. by rewrite Hcp, IH.
Qed.

Lemma toUpperCase_head u0 rest v vs :
  isLeadingSurrogate u0 = false ->
  upper u0 = v :: vs -> v <= 65535 ->
  exists t, toUpperCase upper (u0 :: rest) = v :: t.
Proof.
  intros Hlead Hup Hv. unfold toUpperCase. cbn [StringToCodePoints].
  rewrite Hlead. cbn [flat_map]. rewrite Hup.
  unfold CodePointsToString. cbn [flat_map app].
  rewrite encode_unit by done. simpl. eauto.
Qed.

End CaseFacts.

(** X12: a token that begins with a character whose upper-case form is
    another character (a lower-case letter) is taken for a leaf address,
    whatever follows it: the loop body does what it does for a leaf, and no
    text after the first character can make the token a marker. *)
Theorem lowercase_initial_is_leaf upper site u0 rest v vs st :
  isLeadingSurrogate u0 = false ->
  upper u0 = v :: vs ->
  v <= 65535 ->
  v <> u0 ->
  classify upper (u0 :: rest) = inr (Leaf (u0 :: rest)) /\
  iteration upper site (u0 :: rest) st = visitLeaf site (u0 :: rest) st.
Proof.
  intros Hlead Hup Hv Hne.
  destruct (toUpperCase_head upper u0 [] v vs Hlead Hup Hv) as [t1 H1].
  destruct (toUpperCase_head upper u0 rest v vs Hlead Hup Hv) as [t2 H2].
  assert (Hc : classify upper (u0 :: rest) = inr (Leaf (u0 :: rest))).
  { apply classify_lowercase; [rewrite H1 | rewrite H2]; congruence. }
  split; [done|]. by rewrite iteration_classify, Hc.
Qed.

Lemma lowercase_initial_is_leaf_witness :
  let st := startAt (listing [leafAnchor]) in
  classify upperLatinCyrillic (codeUnit "h" :: drop 1 leafUrl)
  = inr (Leaf (codeUnit "h" :: drop 1 leafUrl)).
Proof.
  intros st.
  refine (proj1 (lowercase_initial_is_leaf upperLatinCyrillic sampleSite
            (codeUnit "h") (drop 1 leafUrl) (codeUnit "H") [] st _ _ _ _)).
  - vm_compute. reflexivity.
  - vm_compute. reflexivity.
  - vm_compute. discriminate.
  - vm_compute. discriminate.
Defined.

(** X13: a non-empty token without cased characters (digits, punctuation,
    white space: every code point is its own upper-case form) passes the
    upper-case test and is taken for an order marker: the loop body stores
    it as the order and visits nothing. *)
Theorem caseless_token_is_order upper site tok st :
  tok <> [] ->
  Forall (fun u => u <= 65535) tok ->
  Forall (fun cp => upper cp = [cp]) (StringToCodePoints tok) ->
  toUpperCase upper tok = tok /\
  classify upper tok = inr (OrderMarker tok) /\
  iteration upper site tok st = Return tt (withOrder tok st).
Proof.
  intros Hne Hunits Hfixed.
  assert (Hup : toUpperCase upper tok = tok).
  { unfold toUpperCase. rewrite flat_map_fixed by done.
    by apply code_points_round_trip. }
  pose proof (classify_uppercase upper tok Hne Hup) as Hc.
  split; [done|]. split; [done|]. by rewrite iteration_classify, Hc.
Qed.

Lemma caseless_token_is_order_witness :
  let tok := js "2023 / 2024" in
  let st := startAt (listing []) in
  iteration upperLatinCyrillic sampleSite tok st = Return tt (withOrder tok st).
Proof.
  intros tok st.
  refine (proj2 (proj2 (caseless_token_is_order upperLatinCyrillic sampleSite
            tok st _ _ _))).
  - vm_compute. discriminate.
  - vm_compute. repeat constructor; discriminate.
  - vm_compute. repeat constructor.
Defined.
